(** * The shop network of [main.cpp]: object graph, edge insertion and [reduce]

    The program reads a list of roads between shops, builds a graph of
    heap-allocated [thomas::shop] objects owned by a [thomas::network], and
    prints [network.reduce()].

    The embedding keeps the object identity of the source: a [shop *] is the
    index of an object in the allocation order, the network's [std::map] is an
    association list kept in ascending key order, and every member function is
    a computation over the process state that can return, propagate
    [std::out_of_range], call [std::terminate] or run into undefined
    behaviour. *)

From Stdlib Require Import List NArith PeanoNat Bool Lia Permutation Sorted.
Import ListNotations.

Set Implicit Arguments.

(** ** Machine integers *)

(** [uint64_t]: a natural number below [2^64]; additions are reduced
    explicitly with [wrap64]. *)
Definition uint64 := N.

Definition wrap64 (x : N) : uint64 := (x mod 2 ^ 64)%N.

(** ** Objects and the process state *)

(** [thomas::shop *]: the position of the object in allocation order. *)
Definition ptr := nat.

(** [class shop]: [identifier] and [connected_shops]. *)
Record shop : Type := Shop {
  identifier : uint64;
  connected_shops : list ptr
}.

(** [std::map<uint64_t, thomas::shop *>]: entries in ascending key order,
    which is also the iteration order. *)
Module StdMap.

Definition t := list (uint64 * ptr).

Definition empty : t := [].

(** [std::map::find], as used by [at]. *)
Fixpoint find (m : t) (i : uint64) : option ptr :=
  match m with
  | [] => None
  | (k, v) :: m' => if N.eqb i k then Some v else find m' i
  end.

(** [std::map::insert]: the entry goes to its place in key order; when the
    key is already there the map is left as it is. *)
Fixpoint insert (kv : uint64 * ptr) (m : t) : t :=
  match m with
  | [] => [kv]
  | e :: m' =>
      match N.compare (fst kv) (fst e) with
      | Lt => kv :: m
      | Eq => m
      | Gt => e :: insert kv m'
      end
  end.

(** Keys strictly ascending: the representation invariant of the map. *)
Definition ordered (m : t) : Prop :=
  StronglySorted N.lt (map fst m).

Fixpoint orderedb (m : t) : bool :=
  match m with
  | [] => true
  | e :: m' => forallb (fun e' => N.ltb (fst e) (fst e')) m' && orderedb m'
  end.

End StdMap.

(** The heap of [shop] objects and the [shops] member of the one [network]
    object of [main]. *)
Record state : Type := State {
  heap : list shop;
  shops : StdMap.t
}.

(** The state at [thomas::network network;]: nothing allocated, empty map. *)
Definition initial : state := State [] StdMap.empty.

(** ** Computations *)

Inductive outcome (A : Type) : Type :=
| Return (a : A) (s : state)     (* normal completion *)
| Throw (s : state)              (* a std::out_of_range is propagating *)
| Terminate                      (* std::terminate() was called *)
| Undefined.                     (* undefined behaviour was reached *)

Arguments Throw {A} s.
Arguments Terminate {A}.
Arguments Undefined {A}.

Definition M (A : Type) : Type := state -> outcome A.

Definition ret {A} (a : A) : M A := fun s => Return a s.

Definition bind {A B} (m : M A) (k : A -> M B) : M B :=
  fun s =>
    match m s with
    | Return a s' => k a s'
    | Throw s' => Throw s'
    | Terminate => Terminate
    | Undefined => Undefined
    end.

(** [try { body } catch (std::out_of_range &) { handler }]. *)
Definition try_catch {A} (body handler : M A) : M A :=
  fun s =>
    match body s with
    | Throw s' => handler s'
    | o => o
    end.

Definition terminate {A} : M A := fun _ => Terminate.

Definition undefined {A} : M A := fun _ => Undefined.

Declare Scope cpp_scope.
Delimit Scope cpp_scope with cpp.
Notation "x <- m ;; k" := (bind m (fun x => k))
  (at level 61, m at next level, right associativity) : cpp_scope.
Notation "m ;; k" := (bind m (fun _ => k))
  (at level 61, right associativity) : cpp_scope.
Notation "'try' b 'catch' h" := (try_catch b h)
  (at level 60, b at level 61, h at level 61) : cpp_scope.
Local Open Scope cpp_scope.

(** Range-based [for] and [std::for_each] with a body that produces a value
    per element. *)
Fixpoint for_each {A B} (f : A -> M B) (l : list A) : M (list B) :=
  match l with
  | [] => ret []
  | x :: l' => y <- f x ;; ys <- for_each f l' ;; ret (y :: ys)
  end.

(** A loop that updates an accumulator. *)
Fixpoint for_fold {A B} (f : B -> A -> M B) (l : list A) (acc : B) : M B :=
  match l with
  | [] => ret acc
  | x :: l' => acc' <- f acc x ;; for_fold f l' acc'
  end.

(** [v.erase(std::remove_if(v.begin(), v.end(), pred), v.end())]: the elements
    for which [pred] is false, in their order. *)
Fixpoint erase_remove_if {A} (pred : A -> M bool) (l : list A) : M (list A) :=
  match l with
  | [] => ret []
  | x :: l' =>
      b <- pred x ;;
      r <- erase_remove_if pred l' ;;
      ret (if b then r else x :: r)
  end.

(** [v.front()]: undefined on an empty vector. *)
Definition front {A} (v : list A) : M A :=
  match v with
  | [] => undefined
  | x :: _ => ret x
  end.

(** ** Member functions of [shop], through a pointer *)

(** Dereferencing a pointer that designates no object is undefined. *)
Definition deref (p : ptr) : M shop :=
  fun s =>
    match nth_error (heap s) p with
    | Some o => Return o s
    | None => Undefined
    end.

(** [p->get_connected_shops()], read. *)
Definition get_connected_shops (p : ptr) : M (list ptr) :=
  o <- deref p ;; ret (connected_shops o).

(** [p->get_connected_shops().size()]. *)
Definition connected_size (p : ptr) : M nat :=
  v <- get_connected_shops p ;; ret (length v).

(** [p->get_identifier()]. *)
Definition get_identifier (p : ptr) : M uint64 :=
  o <- deref p ;; ret (identifier o).

Fixpoint update {A} (l : list A) (n : nat) (x : A) : list A :=
  match l, n with
  | [], _ => []
  | _ :: l', O => x :: l'
  | y :: l', S n' => y :: update l' n' x
  end.

(** [p->get_connected_shops().push_back(q)]. *)
Definition push_back (p q : ptr) : M unit :=
  fun s =>
    match nth_error (heap s) p with
    | Some o =>
        Return tt
          (State (update (heap s) p
                    (Shop (identifier o) (connected_shops o ++ [q])))
                 (shops s))
    | None => Undefined
    end.

(** [new thomas::shop(id)]: a fresh object with no connection. *)
Definition new_shop (id : uint64) : M ptr :=
  fun s => Return (length (heap s)) (State (heap s ++ [Shop id []]) (shops s)).

(** ** Member functions of [network] *)

Definition get_shops : M StdMap.t :=
  fun s => Return (shops s) s.

(** [shop_at(i)]: [std::map::at] throws [std::out_of_range] on a missing
    key. *)
Definition shop_at (i : uint64) : M ptr :=
  fun s =>
    match StdMap.find (shops s) i with
    | Some p => Return p s
    | None => Throw s
    end.

(** [register_shop(shop)]:
    [shops.insert(std::make_pair(shop->get_identifier(), shop))]. *)
Definition register_shop (p : ptr) : M unit :=
  id <- get_identifier p ;;
  fun s => Return tt (State (heap s) (StdMap.insert (id, p) (shops s))).

(** [number_of_connections()]: one increment of the [uint64_t] counter per
    entry of every registered shop's vector. *)
Definition number_of_connections : M uint64 :=
  shops <- get_shops ;;
  for_fold
    (fun counter each_pair =>
       remote_shops <- get_connected_shops (snd each_pair) ;;
       ret (fold_left (fun c _ => wrap64 (c + 1)) remote_shops counter))
    shops 0%N.

(** [operator<<] on a network: every connection of every registered shop is
    read (both identifiers) and written to the stream. *)
Definition print_network : M unit :=
  shops <- get_shops ;;
  for_each
    (fun each_pair =>
       remote_shops <- get_connected_shops (snd each_pair) ;;
       for_each
         (fun remote_shop =>
            get_identifier (snd each_pair) ;;
            get_identifier remote_shop)
         remote_shops)
    shops ;;
  ret tt.

(** The connections of the object at [p] in a state, and their number, as
    plain functions of the state (nothing for a pointer to no object). *)
Definition links (s : state) (p : ptr) : list ptr :=
  match nth_error (heap s) p with
  | Some o => connected_shops o
  | None => []
  end.

Definition degree (s : state) (p : ptr) : nat := length (links s p).

(** ** [std::sort] *)

(** What the standard requires of a comparator. *)
Record strict_weak_order {A} (comp : A -> A -> bool) : Prop := {
  swo_irrefl : forall a, comp a a = false;
  swo_trans : forall a b c, comp a b = true -> comp b c = true -> comp a c = true;
  swo_incomp : forall a b c,
      comp a b = false -> comp b a = false ->
      comp b c = false -> comp c b = false ->
      comp a c = false /\ comp c a = false
}.

(** Sorted with respect to [comp]: no later element goes before an earlier
    one. *)
Definition sorted_by {A} (comp : A -> A -> bool) (l : list A) : Prop :=
  StronglySorted (fun a b => comp b a = false) l.

(** [std::sort] is not stable and the standard fixes no algorithm: the model
    takes any function that meets the contract, a rearrangement of the input
    that is sorted with respect to the comparator. *)
Class StdSort : Type := {
  std_sort : forall A : Type, (A -> A -> bool) -> list A -> list A;
  std_sort_perm : forall A (comp : A -> A -> bool) l,
      Permutation (std_sort comp l) l;
  std_sort_sorted : forall A (comp : A -> A -> bool) l,
      strict_weak_order comp -> sorted_by comp (std_sort comp l)
}.

(** ** [network::reduce] *)

(** [struct _impact_entry]. *)
Record _impact_entry : Type := Impact_entry { impact : uint64 }.

(** [std::find(v.begin(), v.end(), x) == v.end()], on pointers. *)
Definition not_found (v : list ptr) (x : ptr) : bool :=
  negb (existsb (Nat.eqb x) v).

Section Reduce.

Context {sorter : StdSort}.

(** The first [std::sort]: its comparator reads
    [lhs->get_connected_shops().size()] and the same of [rhs], and is
    applied to every element of a vector of two or more, so each element is
    dereferenced; the order it induces is that of the sizes in the heap at
    the call. *)
Definition sort_by_connections (v : list ptr) : M (list ptr) :=
  for_each connected_size v ;;
  fun s =>
    let size := degree s in
    Return (std_sort (fun lhs rhs => Nat.ltb (size rhs) (size lhs)) v) s.

Definition reduce : M uint64 :=
  shops <- get_shops ;;
  (* linear_shops.push_back(pair.second) for each pair *)
  let linear_shops := map snd shops in
  (* sort the linear container with number of connections *)
  linear_shops <- sort_by_connections linear_shops ;;
  first <- front linear_shops ;;
  threshold <- connected_size first ;;
  (* filter out the elements with connection size lower than threshold *)
  linear_shops <-
    erase_remove_if
      (fun el => size <- connected_size el ;; ret (Nat.ltb size threshold))
      linear_shops ;;
  (* find the external impact of each node *)
  impacts <-
    for_each
      (fun el =>
         connections <- get_connected_shops el ;;
         impact <-
           for_fold
             (fun impact each_connection =>
                if not_found linear_shops each_connection
                then
                  size <- connected_size each_connection ;;
                  ret (wrap64 (impact + N.of_nat size))
                else ret impact)
             connections 0%N ;;
         ret (Impact_entry impact))
      linear_shops ;;
  (* sort the array with impact values descending *)
  let impacts :=
    std_sort (fun lhs rhs => N.ltb (impact rhs) (impact lhs)) impacts in
  first <- front impacts ;;
  let required_impact := impact first in
  (* filter out the elements with impact lower than required *)
  let impacts :=
    filter (fun el => negb (N.ltb (impact el) required_impact)) impacts in
  if Nat.ltb (length impacts) 2
  then ret 0%N
  else ret (N.of_nat (length impacts)).

End Reduce.

(** ** [main] *)

(** What [std::sscanf(line, "%lu %lu", &a, &b)] delivers for a line: the two
    numbers, or [None] when it does not return 2. *)
Definition line := option (uint64 * uint64).

(** The [try]/[catch] block of the edge loop. *)
Definition insert_edge (shop_id road_to : uint64) : M unit :=
  try (shop <- shop_at shop_id ;;
       try (dest <- shop_at road_to ;;
            push_back dest shop ;;
            push_back shop dest)
       catch (new_dest <- new_shop road_to ;;
              push_back new_dest shop ;;
              push_back shop new_dest ;;
              register_shop new_dest))
  catch (new_shop_ <- new_shop shop_id ;;
         (try (dest <- shop_at road_to ;;
               push_back dest new_shop_ ;;
               push_back new_shop_ dest)
          catch (new_dest <- new_shop road_to ;;
                 push_back new_dest new_shop_ ;;
                 push_back new_shop_ new_dest ;;
                 register_shop new_dest)) ;;
         register_shop new_shop_).

(** One iteration of the edge loop, after [std::getline] delivered a line. *)
Definition edge_line (l : line) : M unit :=
  match l with
  | None => terminate                       (* parsing error *)
  | Some (shop_id, road_to) =>
      if N.ltb shop_id 1 || N.ltb 1000 shop_id
      then ret tt                           (* warning; continue *)
      else insert_edge shop_id road_to
  end.

(** [for (i = 0; i < num_roads && std::getline(input_file, buffer_str); ++i)]:
    [lines] are the lines left in the file. *)
Fixpoint edge_loop (i num_roads : uint64) (lines : list line) : M unit :=
  match lines with
  | [] => ret tt
  | l :: rest =>
      if N.ltb i num_roads
      then edge_line l ;; edge_loop (i + 1)%N num_roads rest
      else ret tt
  end.

Section Main.

Context {sorter : StdSort}.

(** [main], once the file named by the one argument is open (a wrong argument
    count or a file that does not open ends in [std::terminate()] before
    anything is read): [header] is what [sscanf] delivers for the first line,
    [lines] the lines after it. The result is the number written to
    [std::cout]. *)
Definition main (header : line) (lines : list line) : M uint64 :=
  match header with
  | None => terminate
  | Some (num_shops, num_roads) =>
      if N.ltb num_shops 2 || N.ltb 1000 num_shops then terminate
      else if N.ltb num_roads 1 || N.ltb 1000 num_roads then terminate
      else
        edge_loop 0%N num_roads lines ;;
        print_network ;;                  (* DEBUG_STREAM << network *)
        number_of_connections ;;          (* DEBUG_STREAM << "network size: " ... *)
        reduce
  end.

End Main.

(** ** A sorter: insertion sort *)

Fixpoint insert_sorted {A} (comp : A -> A -> bool) (x : A) (l : list A) : list A :=
  match l with
  | [] => [x]
  | y :: l' => if comp x y then x :: l else y :: insert_sorted comp x l'
  end.

Definition insertion_sort {A} (comp : A -> A -> bool) (l : list A) : list A :=
  fold_right (insert_sorted comp) [] l.

(** * Well-formed states *)

(** No dangling pointer, and the map in key order: what every state that the
    program builds satisfies (see [wf_after_edge] and [edge_loop_spec]). *)
Record wf (s : state) : Prop := {
  wf_registered : forall k p, In (k, p) (shops s) -> p < length (heap s);
  wf_connected : forall p q, In q (links s p) -> q < length (heap s);
  wf_ordered : StdMap.ordered (shops s)
}.

(** The same, as a test. *)
Definition wfb (s : state) : bool :=
  forallb (fun e => Nat.ltb (snd e) (length (heap s))) (shops s)
  && forallb
       (fun o => forallb (fun q => Nat.ltb q (length (heap s))) (connected_shops o))
       (heap s)
  && StdMap.orderedb (shops s).

(** The sum of the sizes of all vectors in the heap. *)
Definition total_links (s : state) : nat :=
  list_sum (map (fun o => length (connected_shops o)) (heap s)).

(** * The reference algorithm of the specification *)

(** V: the stored nodes. *)
Definition nodes (s : state) : list ptr := map snd (shops s).

(** D: the maximum neighbor-sequence length over the stored nodes. *)
Definition spec_D (s : state) : nat := list_max (map (degree s) (nodes s)).

(** Core: the nodes whose length equals D. *)
Definition Core (s : state) : list ptr :=
  filter (fun v => Nat.eqb (degree s v) (spec_D s)) (nodes s).

(** Membership by node identity. *)
Definition is_in (l : list ptr) (w : ptr) : bool := existsb (Nat.eqb w) l.

(** impact(v): the sum, over the neighbor occurrences of [v] that are not in
    Core, of the occurrence's neighbor-sequence length. *)
Definition spec_impact (s : state) (v : ptr) : nat :=
  list_sum
    (map (fun w => if is_in (Core s) w then 0 else degree s w) (links s v)).

(** I: the maximum impact over Core. *)
Definition spec_I (s : state) : nat := list_max (map (spec_impact s) (Core s)).

(** Winners: the Core nodes with impact I. *)
Definition Winners (s : state) : list ptr :=
  filter (fun v => Nat.eqb (spec_impact s v) (spec_I s)) (Core s).

(** The result: the number of winners when there are at least two, else 0. *)
Definition spec_reduce (s : state) : nat :=
  if Nat.leb 2 (length (Winners s)) then length (Winners s) else 0.

(** The identifier stored in the object at [p]. *)
Definition ident (s : state) (p : ptr) : uint64 :=
  match nth_error (heap s) p with
  | Some o => identifier o
  | None => 0%N
  end.

(** * Auxiliary definitions for the proofs *)

(** The number of entries of a list that reach its maximum. *)
Definition ties (keys : list nat) : nat :=
  length (filter (fun k => Nat.eqb k (list_max keys)) keys).

(** The external impact that the inner loop of [reduce] accumulates for
    [el], with its 64-bit additions, over the kept shops [core]. *)
Definition impact_of (s : state) (core : list ptr) (el : ptr) : uint64 :=
  fold_left
    (fun impact each_connection =>
       if not_found core each_connection
       then wrap64 (impact + N.of_nat (degree s each_connection))
       else impact)
    (links s el) 0%N.

(** The value that [reduce] returns, free of the sorter. *)
Definition reduce_value (s : state) : uint64 :=
  let n := ties (map (fun el => N.to_nat (impact_of s (Core s) el)) (Core s)) in
  if Nat.ltb n 2 then 0%N else N.of_nat n.

(** What [number_of_connections] counts, with its 64-bit counter. *)
Definition connections_count (s : state) : uint64 :=
  fold_left
    (fun counter each_pair =>
       fold_left (fun c _ => wrap64 (c + 1)) (links s (snd each_pair)) counter)
    (shops s) 0%N.

(** * The steps of an edge insertion, as state transformers *)

(** The state after [new thomas::shop(id)]. *)
Definition alloc (id : uint64) (s : state) : state :=
  State (heap s ++ [Shop id []]) (shops s).

(** The state after [p->get_connected_shops().push_back(q)], [p] valid. *)
Definition link (p q : ptr) (s : state) : state :=
  match nth_error (heap s) p with
  | Some o =>
      State (update (heap s) p (Shop (identifier o) (connected_shops o ++ [q])))
            (shops s)
  | None => s
  end.

(** The state after [register_shop(p)], [p] valid. *)
Definition enroll (p : ptr) (s : state) : state :=
  match nth_error (heap s) p with
  | Some o => State (heap s) (StdMap.insert (identifier o, p) (shops s))
  | None => s
  end.

(** The state that the [try]/[catch] block leaves, by the two lookups. *)
Definition after_edge (shop_id road_to : uint64) (s : state) : state :=
  match StdMap.find (shops s) shop_id, StdMap.find (shops s) road_to with
  | Some shop, Some dest =>
      link shop dest (link dest shop s)
  | Some shop, None =>
      let new_dest := length (heap s) in
      enroll new_dest
        (link shop new_dest (link new_dest shop (alloc road_to s)))
  | None, Some dest =>
      let new_shop := length (heap s) in
      enroll new_shop
        (link new_shop dest (link dest new_shop (alloc shop_id s)))
  | None, None =>
      let new_shop := length (heap s) in
      let new_dest := S (length (heap s)) in
      enroll new_shop
        (enroll new_dest
           (link new_shop new_dest
              (link new_dest new_shop (alloc road_to (alloc shop_id s)))))
  end.

(** Every object of the heap is held by the map, once. *)
Definition all_registered (s : state) : Prop :=
  Permutation (nodes s) (seq 0 (length (heap s))).

(** The lines of the edge loop that reach the [try] block. *)
Fixpoint insertions (i num_roads : uint64) (lines : list line) : nat :=
  match lines with
  | [] => 0
  | l :: rest =>
      if N.ltb i num_roads
      then
        match l with
        | Some (shop_id, _) =>
            if N.ltb shop_id 1 || N.ltb 1000 shop_id then 0 else 1
        | None => 0
        end + insertions (i + 1)%N num_roads rest
      else 0
  end.

(** A line that does not join an identifier to itself. *)
Definition no_self_loop (l : line) : Prop :=
  match l with
  | Some (shop_id, road_to) => shop_id <> road_to
  | None => True
  end.

(** * Finalized stores *)

(** The states in which [main] calls [reduce]: those the edge loop leaves,
    with the [num_roads] that [main] admits. *)
Definition finalized (s : state) : Prop :=
  exists num_roads lines,
    (num_roads <= 1000)%N
    /\ edge_loop 0%N num_roads lines initial = Return tt s.

(** * Example states *)

(** Six shops, roads 1-2, 1-3, 1-4, 2-5, 2-6. *)
Definition two_hubs : state :=
  State [Shop 1%N [1; 2; 3]; Shop 2%N [0; 4; 5]; Shop 3%N [0]; Shop 4%N [0];
         Shop 5%N [1]; Shop 6%N [1]]
        [(1%N, 0); (2%N, 1); (3%N, 2); (4%N, 3); (5%N, 4); (6%N, 5)].

(** What the single road 5-5 leaves of an empty network. *)
Definition lone_self_loop : state :=
  State [Shop 5%N [1]; Shop 5%N [0]] [(5%N, 1)].

(** * The rest of the program *)

(** [network::~network]: [delete] on the second component of every pair, then
    [shops.clear()]. The objects released so far are kept along the loop: a
    [delete] of an object that is already released, or of a pointer to no
    object, is undefined. The result is the list of the released objects. *)
Definition delete_shop (released : list ptr) (p : ptr) : M (list ptr) :=
  if is_in released p then undefined
  else deref p ;; ret (released ++ [p]).

Definition destroy_network : M (list ptr) :=
  shops <- get_shops ;;
  released <-
    for_fold (fun released each_pair => delete_shop released (snd each_pair))
             shops [] ;;
  (fun s => Return tt (State (heap s) StdMap.empty)) ;;
  ret released.

(** [operator<<] with what it writes: one line
    ["<identifier> is connected with <identifier>"] per connection, kept as
    the pair of the two identifiers. *)
Definition stream_network : M (list (uint64 * uint64)) :=
  shops <- get_shops ;;
  written <-
    for_each
      (fun each_pair =>
         remote_shops <- get_connected_shops (snd each_pair) ;;
         for_each
           (fun remote_shop =>
              a <- get_identifier (snd each_pair) ;;
              b <- get_identifier remote_shop ;;
              ret (a, b))
           remote_shops)
      shops ;;
  ret (concat written).

(** * Auxiliary definitions for the further properties *)

(** The two objects that an edge insertion joins: the one found under the
    identifier, or the one it allocates. *)
Definition src_ptr (shop_id : uint64) (s : state) : ptr :=
  match StdMap.find (shops s) shop_id with
  | Some shop => shop
  | None => length (heap s)
  end.

Definition dst_ptr (shop_id road_to : uint64) (s : state) : ptr :=
  match StdMap.find (shops s) road_to with
  | Some dest => dest
  | None =>
      match StdMap.find (shops s) shop_id with
      | Some _ => length (heap s)
      | None => S (length (heap s))
      end
  end.

(** The lines that the edge loop reads. *)
Definition lines_read (num_roads : uint64) (lines : list line) : list line :=
  firstn (N.to_nat num_roads) lines.

(** Whether [main] accepts the header. *)
Definition header_ok (header : line) : bool :=
  match header with
  | None => false
  | Some (num_shops, num_roads) =>
      negb (N.ltb num_shops 2 || N.ltb 1000 num_shops)
      && negb (N.ltb num_roads 1 || N.ltb 1000 num_roads)
  end.

(** The self-loop lines, among the inserted ones, whose identifier is on no
    earlier inserted line; [seen] holds the identifiers of the earlier
    inserted lines. *)
Fixpoint first_self_loops (seen : list uint64) (lines : list line) : nat :=
  match lines with
  | [] => 0
  | None :: _ => 0
  | Some (shop_id, road_to) :: rest =>
      if N.ltb shop_id 1 || N.ltb 1000 shop_id
      then first_self_loops seen rest
      else
        (if N.eqb shop_id road_to && negb (existsb (N.eqb shop_id) seen)
         then 1 else 0)
        + first_self_loops (shop_id :: road_to :: seen) rest
  end.

(** The inserted lines among a list of lines. *)
Fixpoint inserted (lines : list line) : nat :=
  match lines with
  | [] => 0
  | None :: _ => 0
  | Some (shop_id, _) :: rest =>
      (if N.ltb shop_id 1 || N.ltb 1000 shop_id then 0 else 1) + inserted rest
  end.

(** The edge loop on lines that are all read. *)
Fixpoint edge_lines (lines : list line) : M unit :=
  match lines with
  | [] => ret tt
  | l :: rest => edge_line l ;; edge_lines rest
  end.

(** Every entry of the map holds an object that carries the key as its
    identifier. *)
Definition own_keys (s : state) : Prop :=
  forall k p, In (k, p) (shops s) -> ident s p = k.

(** The identifier of every object in the heap is a key of the map. *)
Definition known_identifiers (s : state) : Prop :=
  forall p, p < length (heap s) -> StdMap.find (shops s) (ident s p) <> None.

(** Connections come in pairs: [q] is in the vector of [p] as many times as
    [p] is in the vector of [q]. *)
Definition symmetric_links (s : state) : Prop :=
  forall p q,
    count_occ Nat.eq_dec (links s p) q = count_occ Nat.eq_dec (links s q) p.

(** Every object outside the map holds exactly one connection. *)
Definition lone_orphans (s : state) : Prop :=
  forall p, p < length (heap s) -> ~ In p (nodes s) -> degree s p = 1.

(** The keys of the map are the identifiers in [seen]. *)
Definition keys_are (seen : list uint64) (s : state) : Prop :=
  forall k, StdMap.find (shops s) k <> None <-> In k seen.

(** The identifiers on the inserted lines. *)
Fixpoint endpoints (lines : list line) : list uint64 :=
  match lines with
  | [] => []
  | None :: _ => []
  | Some (shop_id, road_to) :: rest =>
      if N.ltb shop_id 1 || N.ltb 1000 shop_id
      then endpoints rest
      else shop_id :: road_to :: endpoints rest
  end.


(** * The insertion sort meets the contract of [std::sort] *)

Lemma insert_sorted_perm A (comp : A -> A -> bool) x l :
  Permutation (insert_sorted comp x l) (x :: l).
Proof.
  induction l as [|y l IH]; simpl; [reflexivity|].
  destruct (comp x y); [reflexivity|].
  rewrite IH. apply perm_swap.
Qed.

Lemma insertion_sort_perm A (comp : A -> A -> bool) l :
  Permutation (insertion_sort comp l) l.
Proof.
  induction l as [|x l IH]; simpl; [reflexivity|].
  rewrite insert_sorted_perm. now constructor.
Qed.

Lemma insert_sorted_sorted A (comp : A -> A -> bool) x l :
  strict_weak_order comp ->
  sorted_by comp l -> sorted_by comp (insert_sorted comp x l).
Proof.
  intros SWO. unfold sorted_by.
  induction l as [|y l IH]; intros Hl; simpl.
  - repeat constructor.
  - apply StronglySorted_inv in Hl. destruct Hl as [Hl Hy].
    destruct (comp x y) eqn:E.
    + constructor; [constructor; assumption|].
      constructor.
      * destruct (comp y x) eqn:E'; [|reflexivity].
        rewrite <- (swo_irrefl SWO x). symmetry.
        eapply swo_trans; eassumption.
      * rewrite Forall_forall in *. intros z Hz.
        destruct (comp z x) eqn:E'; [|reflexivity].
        rewrite <- (Hy z Hz). symmetry.
        eapply swo_trans; eassumption.
    + constructor; [auto|].
      rewrite Forall_forall in *. intros z Hz.
      apply (Permutation_in _ (insert_sorted_perm comp x l)) in Hz.
      destruct Hz as [<-|Hz]; auto.
Qed.

Lemma insertion_sort_sorted A (comp : A -> A -> bool) l :
  strict_weak_order comp -> sorted_by comp (insertion_sort comp l).
Proof.
  intros SWO. induction l as [|x l IH]; simpl.
  - constructor.
  - now apply insert_sorted_sorted.
Qed.

#[export] Instance insertion_sorter : StdSort := {|
  std_sort := @insertion_sort;
  std_sort_perm := insertion_sort_perm;
  std_sort_sorted := insertion_sort_sorted
|}.

(** * Lists *)

Lemma length_update A (l : list A) n x : length (update l n x) = length l.
Proof.
  revert n; induction l as [|y l IH]; intros [|n]; simpl; auto.
Qed.

Lemma nth_error_update_eq A (l : list A) n x :
  n < length l -> nth_error (update l n x) n = Some x.
Proof.
  revert n; induction l as [|y l IH]; intros [|n]; simpl; intros H;
    try lia; auto.
  apply IH. lia.
Qed.

Lemma nth_error_update_neq A (l : list A) n m x :
  n <> m -> nth_error (update l n x) m = nth_error l m.
Proof.
  revert n m; induction l as [|y l IH]; intros [|n] [|m]; simpl; intros H;
    try congruence; auto.
Qed.

Lemma list_sum_update (l : list shop) p o o' :
  nth_error l p = Some o ->
  list_sum (map (fun o => length (connected_shops o)) (update l p o'))
  + length (connected_shops o)
  = list_sum (map (fun o => length (connected_shops o)) l)
    + length (connected_shops o').
Proof.
  revert p; induction l as [|y l IH]; intros [|p]; simpl; intros H;
    try discriminate.
  - injection H as ->. lia.
  - specialize (IH _ H). lia.
Qed.

Lemma list_sum_nth_le (l : list nat) n x :
  nth_error l n = Some x -> x <= list_sum l.
Proof.
  revert n; induction l as [|y l IH]; intros [|n]; simpl; intros H;
    try discriminate.
  - injection H as ->. lia.
  - specialize (IH _ H). lia.
Qed.

Lemma length_filter_map A B (p : B -> bool) (f : A -> B) l :
  length (filter p (map f l)) = length (filter (fun x => p (f x)) l).
Proof.
  induction l as [|x l IH]; simpl; auto.
  destruct (p (f x)); simpl; auto.
Qed.

Lemma Permutation_filter A (p : A -> bool) l l' :
  Permutation l l' -> Permutation (filter p l) (filter p l').
Proof.
  induction 1 as [|x l l' _ IH|x y l|l l' l'' _ IH1 _ IH2]; simpl.
  - constructor.
  - destruct (p x); auto.
  - destruct (p x), (p y); auto. apply perm_swap.
  - now transitivity (filter p l').
Qed.

Lemma is_in_spec l w : is_in l w = true <-> In w l.
Proof.
  unfold is_in. rewrite existsb_exists. split.
  - intros (x & Hx & E). apply Nat.eqb_eq in E. now subst.
  - intros H. exists w. split; [assumption|apply Nat.eqb_refl].
Qed.

Lemma is_in_perm l l' w : Permutation l l' -> is_in l w = is_in l' w.
Proof.
  intros P. destruct (is_in l' w) eqn:E.
  - apply is_in_spec. apply is_in_spec in E.
    eapply Permutation_in; [symmetry|]; eassumption.
  - destruct (is_in l w) eqn:E'; [|reflexivity].
    apply is_in_spec in E'. rewrite <- E. symmetry. apply is_in_spec.
    eapply Permutation_in; eassumption.
Qed.

(** * Computations that only read *)

Lemma for_each_reads A B (f : A -> M B) (g : A -> B) l s :
  (forall x, In x l -> f x s = Return (g x) s) ->
  for_each f l s = Return (map g l) s.
Proof.
  induction l as [|x l IH]; intros H; simpl; [reflexivity|].
  unfold bind. rewrite H by (now left). rewrite IH; [reflexivity|].
  intros y Hy. apply H. now right.
Qed.

Lemma for_fold_reads A B (f : B -> A -> M B) (g : B -> A -> B) l s :
  (forall acc x, In x l -> f acc x s = Return (g acc x) s) ->
  forall acc, for_fold f l acc s = Return (fold_left g l acc) s.
Proof.
  induction l as [|x l IH]; intros H acc; simpl; [reflexivity|].
  unfold bind. rewrite H by (now left). apply IH.
  intros acc' y Hy. apply H. now right.
Qed.

Lemma erase_remove_if_reads A (pred : A -> M bool) (p : A -> bool) l s :
  (forall x, In x l -> pred x s = Return (p x) s) ->
  erase_remove_if pred l s = Return (filter (fun x => negb (p x)) l) s.
Proof.
  induction l as [|x l IH]; intros H; simpl; [reflexivity|].
  unfold bind. rewrite H by (now left). rewrite IH.
  - unfold ret. destruct (p x); reflexivity.
  - intros y Hy. apply H. now right.
Qed.

Lemma get_connected_shops_valid s p :
  p < length (heap s) -> get_connected_shops p s = Return (links s p) s.
Proof.
  intros H. unfold get_connected_shops, bind, deref, links.
  destruct (nth_error (heap s) p) eqn:E; [reflexivity|].
  apply nth_error_None in E. lia.
Qed.

Lemma connected_size_valid s p :
  p < length (heap s) -> connected_size p s = Return (degree s p) s.
Proof.
  intros H. unfold connected_size, bind.
  now rewrite get_connected_shops_valid.
Qed.

Lemma get_identifier_valid s p :
  p < length (heap s) -> get_identifier p s = Return (ident s p) s.
Proof.
  intros H. unfold get_identifier, bind, deref, ident.
  destruct (nth_error (heap s) p) eqn:E; [reflexivity|].
  apply nth_error_None in E. lia.
Qed.

Lemma nodes_valid s v : wf s -> In v (nodes s) -> v < length (heap s).
Proof.
  intros W H. unfold nodes in H. apply in_map_iff in H.
  destruct H as ([k p] & <- & H). eapply wf_registered; eassumption.
Qed.

(** * Sorting in descending order of a key and keeping the front's ties *)

Lemma ties_perm l l' : Permutation l l' -> ties l = ties l'.
Proof.
  intros P. unfold ties. rewrite (Permutation_list_max P).
  apply Permutation_length. now apply Permutation_filter.
Qed.

Lemma list_max_In_le l k : In k l -> k <= list_max l.
Proof.
  intros H. assert (F : Forall (fun k => k <= list_max l) l)
    by (now apply list_max_le).
  rewrite Forall_forall in F. auto.
Qed.

Section TopTies.

Context {sorter : StdSort} {A : Type}.
Variable key : A -> nat.
Variable comp : A -> A -> bool.
Hypothesis comp_key : forall a b, comp a b = Nat.ltb (key b) (key a).

Lemma comp_strict_weak_order : strict_weak_order comp.
Proof.
  split.
  - intros a. rewrite comp_key. apply Nat.ltb_irrefl.
  - intros a b c. rewrite !comp_key, !Nat.ltb_lt. lia.
  - intros a b c. rewrite !comp_key, !Nat.ltb_ge. lia.
Qed.

Lemma sorted_front_max l x rest :
  std_sort comp l = x :: rest -> key x = list_max (map key l).
Proof.
  intros E.
  pose proof (std_sort_sorted l comp_strict_weak_order) as S.
  pose proof (std_sort_perm comp l) as P.
  rewrite E in S, P.
  rewrite <- (Permutation_list_max (Permutation_map key P)).
  apply StronglySorted_inv in S. destruct S as [_ F].
  simpl. symmetry. apply Nat.max_l. apply list_max_le.
  rewrite Forall_forall in *. intros k Hk.
  apply in_map_iff in Hk. destruct Hk as (y & <- & Hy).
  specialize (F y Hy). rewrite comp_key in F.
  now apply Nat.ltb_ge in F.
Qed.

Lemma sort_nonempty l :
  l <> [] -> exists x rest, std_sort comp l = x :: rest.
Proof.
  intros H. destruct (std_sort comp l) as [|x rest] eqn:E.
  - pose proof (std_sort_perm comp l) as P. rewrite E in P.
    apply Permutation_nil in P. contradiction.
  - eauto.
Qed.

Lemma keep_top_perm l :
  Permutation
    (filter (fun el => negb (Nat.ltb (key el) (list_max (map key l))))
            (std_sort comp l))
    (filter (fun el => Nat.eqb (key el) (list_max (map key l))) l).
Proof.
  rewrite (Permutation_filter _ (std_sort_perm comp l)).
  erewrite filter_ext_in; [reflexivity|].
  intros a Ha. simpl.
  assert (key a <= list_max (map key l))
    by (apply list_max_In_le; now apply in_map).
  destruct (Nat.ltb_spec (key a) (list_max (map key l)));
    destruct (Nat.eqb_spec (key a) (list_max (map key l)));
    simpl; auto; lia.
Qed.

Lemma keep_top_length l :
  length
    (filter (fun el => negb (Nat.ltb (key el) (list_max (map key l))))
            (std_sort comp l))
  = ties (map key l).
Proof.
  rewrite (Permutation_length (keep_top_perm l)).
  unfold ties. now rewrite length_filter_map.
Qed.

End TopTies.

Lemma list_max_attained keys : keys <> [] -> In (list_max keys) keys.
Proof.
  intros H. induction keys as [|k l IH]; [contradiction|].
  simpl. destruct l as [|k' l].
  - left. simpl. lia.
  - destruct (Nat.max_spec k (list_max (k' :: l))) as [[_ E]|[_ E]];
      rewrite E; [right; apply IH; discriminate|now left].
Qed.

Lemma ties_pos keys : keys <> [] -> 0 < ties keys.
Proof.
  intros H. unfold ties.
  pose proof (list_max_attained H) as Hin.
  assert (In (list_max keys)
             (filter (fun k => Nat.eqb k (list_max keys)) keys)) as Hf.
  { apply filter_In. split; [assumption|apply Nat.eqb_refl]. }
  destruct (filter _ keys); [contradiction|simpl; lia].
Qed.

(** * What [reduce] computes *)

Lemma impact_of_perm s core core' el :
  Permutation core core' -> impact_of s core el = impact_of s core' el.
Proof.
  intros P. unfold impact_of.
  generalize 0%N. induction (links s el) as [|c l IH]; intros acc; simpl;
    [reflexivity|].
  change (not_found core c) with (negb (is_in core c)).
  change (not_found core' c) with (negb (is_in core' c)).
  rewrite (is_in_perm c P). apply IH.
Qed.

Section ReduceReturns.

Context {sorter : StdSort}.

Lemma sort_by_connections_valid s v :
  (forall p, In p v -> p < length (heap s)) ->
  sort_by_connections v s =
  Return (std_sort (fun lhs rhs => Nat.ltb (degree s rhs) (degree s lhs)) v) s.
Proof.
  intros H. unfold sort_by_connections, bind.
  rewrite (for_each_reads connected_size (degree s)); [reflexivity|].
  intros p Hp. apply connected_size_valid. auto.
Qed.

Lemma impact_loop_valid s core el :
  wf s -> el < length (heap s) ->
  (connections <- get_connected_shops el ;;
   impact <-
     for_fold
       (fun impact each_connection =>
          if not_found core each_connection
          then
            size <- connected_size each_connection ;;
            ret (wrap64 (impact + N.of_nat size))
          else ret impact)
       connections 0%N ;;
   ret (Impact_entry impact)) s
  = Return (Impact_entry (impact_of s core el)) s.
Proof.
  intros W H. unfold bind at 1. rewrite get_connected_shops_valid by assumption.
  unfold bind.
  rewrite (for_fold_reads _
             (fun impact c =>
                if not_found core c
                then wrap64 (impact + N.of_nat (degree s c))
                else impact)); [reflexivity|].
  intros acc c Hc. destruct (not_found core c); [|reflexivity].
  rewrite connected_size_valid; [reflexivity|].
  eapply wf_connected; eassumption.
Qed.

(** The second half of [reduce], on the vector of impacts. *)
Lemma impacts_tail (impacts : list _impact_entry) s :
  impacts <> [] ->
  (first <- front
              (std_sort (fun lhs rhs => N.ltb (impact rhs) (impact lhs))
                        impacts) ;;
   let required_impact := impact first in
   let impacts :=
     filter (fun el => negb (N.ltb (impact el) required_impact))
            (std_sort (fun lhs rhs => N.ltb (impact rhs) (impact lhs))
                      impacts) in
   if Nat.ltb (length impacts) 2
   then ret 0%N
   else ret (N.of_nat (length impacts))) s
  = Return
      (let n := ties (map (fun e => N.to_nat (impact e)) impacts) in
       if Nat.ltb n 2 then 0%N else N.of_nat n) s.
Proof.
  intros NE.
  set (key := fun e : _impact_entry => N.to_nat (impact e)).
  set (comp := fun lhs rhs : _impact_entry => N.ltb (impact rhs) (impact lhs)).
  assert (CK : forall a b, comp a b = Nat.ltb (key b) (key a)).
  { intros a b. unfold comp, key.
    destruct (N.ltb_spec (impact b) (impact a));
      destruct (Nat.ltb_spec (N.to_nat (impact b)) (N.to_nat (impact a)));
      auto; lia. }
  destruct (sort_nonempty comp NE) as (x & rest & E).
  pose proof (sorted_front_max key comp CK _ E) as Hx.
  pose proof (keep_top_length key comp impacts) as L.
  rewrite <- Hx in L.
  unfold bind. rewrite E in *. simpl front. unfold ret at 1. cbv zeta.
  erewrite (filter_ext _ (fun el => negb (Nat.ltb (key el) (key x)))).
  - rewrite L. destruct (Nat.ltb _ 2); reflexivity.
  - intros a. f_equal. unfold key.
    destruct (N.ltb_spec (impact a) (impact x));
      destruct (Nat.ltb_spec (N.to_nat (impact a)) (N.to_nat (impact x)));
      auto; lia.
Qed.

Lemma reduce_returns s :
  wf s -> shops s <> [] -> reduce s = Return (reduce_value s) s.
Proof.
  intros W NE.
  assert (NE' : nodes s <> []).
  { unfold nodes. destruct (shops s); [congruence|discriminate]. }
  set (comp := fun lhs rhs => Nat.ltb (degree s rhs) (degree s lhs)).
  assert (CK : forall a b, comp a b = Nat.ltb (degree s b) (degree s a))
    by reflexivity.
  destruct (sort_nonempty comp NE') as (x & rest & E).
  pose proof (sorted_front_max (degree s) comp CK _ E) as Hx.
  fold (spec_D s) in Hx.
  pose proof (keep_top_perm (degree s) comp (nodes s)) as PC.
  fold (spec_D s) in PC. fold (Core s) in PC. rewrite E in PC.
  set (core := filter (fun el => negb (Nat.ltb (degree s el) (spec_D s)))
                      (x :: rest)) in *.
  assert (V : forall p, In p (x :: rest) -> p < length (heap s)).
  { intros p Hp. apply nodes_valid; [assumption|].
    rewrite <- E in Hp.
    eapply Permutation_in; [apply std_sort_perm|exact Hp]. }
  unfold reduce.
  unfold bind at 1. unfold get_shops. fold (nodes s).
  unfold bind at 1. rewrite sort_by_connections_valid
    by (intros p Hp; apply nodes_valid; assumption).
  fold comp. rewrite E.
  unfold bind at 1. simpl front. unfold ret at 1.
  unfold bind at 1. rewrite connected_size_valid by (apply V; now left).
  rewrite Hx.
  unfold bind at 1.
  rewrite (erase_remove_if_reads _
             (fun el => Nat.ltb (degree s el) (spec_D s))).
  2:{ intros p Hp. unfold bind. rewrite connected_size_valid by auto.
      reflexivity. }
  fold core.
  assert (VC : forall p, In p core -> p < length (heap s)).
  { intros p Hp. apply V. unfold core in Hp. apply filter_In in Hp. tauto. }
  unfold bind at 1.
  rewrite (for_each_reads _ (fun el => Impact_entry (impact_of s core el))).
  2:{ intros el Hel. apply impact_loop_valid; auto. }
  rewrite impacts_tail.
  2:{ assert (In x core) as Hin.
      { apply filter_In. split; [now left|].
        rewrite Hx, Nat.ltb_irrefl. reflexivity. }
      destruct core; [contradiction|discriminate]. }
  f_equal. unfold reduce_value. rewrite map_map. simpl impact.
  rewrite (map_ext_in _ (fun el => N.to_nat (impact_of s (Core s) el))).
  2:{ intros a _. f_equal. now apply impact_of_perm. }
  rewrite (ties_perm (Permutation_map _ PC)). reflexivity.
Qed.

End ReduceReturns.

(** * The map *)

Module StdMapFacts.

Import StdMap.

Lemma find_In m k p : find m k = Some p -> In (k, p) m.
Proof.
  induction m as [|[k' v'] m IH]; simpl; [discriminate|].
  destruct (N.eqb_spec k k') as [->|].
  - intros [= ->]. now left.
  - intros H. right. auto.
Qed.

Lemma ordered_inv e m :
  ordered (e :: m) ->
  ordered m /\ forall e', In e' m -> (fst e < fst e')%N.
Proof.
  unfold ordered. simpl. intros H. apply StronglySorted_inv in H.
  destruct H as [H F]. split; [assumption|].
  rewrite Forall_forall in F. intros e' He'. apply F. now apply in_map.
Qed.

Lemma insert_In kv m e : In e (insert kv m) -> e = kv \/ In e m.
Proof.
  induction m as [|e' m IH]; simpl.
  - intros [<-|[]]. now left.
  - destruct (N.compare (fst kv) (fst e')); simpl; intros H.
    + now right.
    + destruct H as [<-|H]; auto.
    + destruct H as [<-|H]; auto. destruct (IH H); auto.
Qed.

Lemma insert_ordered kv m : ordered m -> ordered (insert kv m).
Proof.
  induction m as [|e m IH]; simpl; intros H.
  - unfold ordered. simpl. repeat constructor.
  - destruct (N.compare_spec (fst kv) (fst e)) as [E|L|G]; [assumption| |].
    + destruct (ordered_inv H) as [_ F].
      unfold ordered in *. simpl. constructor; [assumption|].
      constructor; [assumption|].
      rewrite Forall_forall. intros k Hk. apply in_map_iff in Hk.
      destruct Hk as (e' & <- & He'). specialize (F e' He'). lia.
    + destruct (ordered_inv H) as [H' F].
      unfold ordered in *. simpl. constructor; [now apply IH|].
      rewrite Forall_forall. intros k Hk. apply in_map_iff in Hk.
      destruct Hk as (e' & <- & He'). apply insert_In in He'.
      destruct He' as [->|He']; [assumption|now apply F].
Qed.

(** An insertion under a key that is present leaves the map as it is. *)
Lemma insert_present m k p q :
  ordered m -> find m k = Some q -> insert (k, p) m = m.
Proof.
  induction m as [|[k' v'] m IH]; simpl; [discriminate|].
  intros H. destruct (ordered_inv H) as [H' F].
  destruct (N.eqb_spec k k') as [->|NE].
  - intros _. now rewrite N.compare_refl.
  - intros Hf. destruct (N.compare_spec k k') as [E|L|G].
    + contradiction.
    + apply find_In in Hf. specialize (F _ Hf). simpl in F. lia.
    + f_equal. now apply IH.
Qed.

Lemma find_insert_other m k p k' :
  k' <> k -> find (insert (k, p) m) k' = find m k'.
Proof.
  intros NE. induction m as [|[k1 v1] m IH]; simpl.
  - destruct (N.eqb_spec k' k); [contradiction|reflexivity].
  - destruct (N.compare_spec k k1) as [E|L|G]; simpl.
    + reflexivity.
    + destruct (N.eqb_spec k' k); [contradiction|reflexivity].
    + now rewrite IH.
Qed.

Lemma find_insert_absent m k p :
  find m k = None -> find (insert (k, p) m) k = Some p.
Proof.
  induction m as [|[k1 v1] m IH]; simpl.
  - now rewrite N.eqb_refl.
  - destruct (N.eqb_spec k k1) as [->|NE]; [discriminate|].
    intros Hf. destruct (N.compare_spec k k1) as [E|L|G]; simpl.
    + contradiction.
    + now rewrite N.eqb_refl.
    + destruct (N.eqb_spec k k1); [contradiction|]. now apply IH.
Qed.

(** Once a key is mapped, later insertions keep its entry. *)
Lemma find_insert_stable m kv k q :
  ordered m -> find m k = Some q -> find (insert kv m) k = Some q.
Proof.
  intros H Hf. destruct kv as [k0 p].
  destruct (N.eq_dec k k0) as [->|NE].
  - now rewrite (@insert_present m k0 p q H Hf).
  - now rewrite find_insert_other.
Qed.

Lemma orderedb_sound m : orderedb m = true -> ordered m.
Proof.
  unfold ordered. induction m as [|e m IH]; simpl; intros H.
  - constructor.
  - apply andb_true_iff in H. destruct H as [F H].
    constructor; [auto|].
    rewrite forallb_forall in F. rewrite Forall_forall.
    intros k Hk. apply in_map_iff in Hk. destruct Hk as (e' & <- & He').
    apply N.ltb_lt. auto.
Qed.

End StdMapFacts.

Lemma wfb_sound s : wfb s = true -> wf s.
Proof.
  unfold wfb. rewrite !andb_true_iff. intros [[R C] O].
  rewrite forallb_forall in R, C. split.
  - intros k p H. apply Nat.ltb_lt. apply (R _ H).
  - intros p q. unfold links.
    destruct (nth_error (heap s) p) as [o|] eqn:E; [|intros []].
    intros H. apply nth_error_In in E. specialize (C _ E).
    rewrite forallb_forall in C. apply Nat.ltb_lt. auto.
  - now apply StdMapFacts.orderedb_sound.
Qed.

Lemma wf_initial : wf initial.
Proof. apply wfb_sound. reflexivity. Qed.

(** * The steps of an edge insertion *)

Lemma push_back_valid s p q :
  p < length (heap s) -> push_back p q s = Return tt (link p q s).
Proof.
  intros H. unfold push_back, link.
  destruct (nth_error (heap s) p) eqn:E; [reflexivity|].
  apply nth_error_None in E. lia.
Qed.

Lemma register_shop_valid s p :
  p < length (heap s) -> register_shop p s = Return tt (enroll p s).
Proof.
  intros H. unfold register_shop, enroll, bind, get_identifier, bind, deref.
  destruct (nth_error (heap s) p) eqn:E; [reflexivity|].
  apply nth_error_None in E. lia.
Qed.

Lemma heap_alloc id s : length (heap (alloc id s)) = S (length (heap s)).
Proof. unfold alloc. simpl. rewrite length_app. simpl. lia. Qed.

Lemma heap_link p q s : length (heap (link p q s)) = length (heap s).
Proof.
  unfold link. destruct (nth_error (heap s) p); [|reflexivity].
  simpl. apply length_update.
Qed.

Lemma heap_enroll p s : heap (enroll p s) = heap s.
Proof. unfold enroll. now destruct (nth_error (heap s) p). Qed.

Lemma shops_alloc id s : shops (alloc id s) = shops s.
Proof. reflexivity. Qed.

Lemma shops_link p q s : shops (link p q s) = shops s.
Proof. unfold link. now destruct (nth_error (heap s) p). Qed.

Lemma links_alloc id s p :
  links (alloc id s) p = links s p.
Proof.
  unfold links, alloc. simpl.
  destruct (Nat.lt_ge_cases p (length (heap s))) as [L|G].
  - now rewrite nth_error_app1.
  - rewrite nth_error_app2 by assumption.
    replace (nth_error (heap s) p) with (@None shop)
      by (symmetry; now apply nth_error_None).
    destruct (p - length (heap s)) as [|[|n]]; reflexivity.
Qed.

Lemma links_link p q s p' :
  p < length (heap s) ->
  links (link p q s) p' = if Nat.eqb p' p then links s p ++ [q] else links s p'.
Proof.
  intros H. unfold links, link.
  destruct (nth_error (heap s) p) as [o|] eqn:E.
  2:{ apply nth_error_None in E. lia. }
  simpl. destruct (Nat.eqb_spec p' p) as [->|NE].
  - now rewrite nth_error_update_eq.
  - rewrite nth_error_update_neq by congruence. reflexivity.
Qed.

Lemma links_enroll p s p' : links (enroll p s) p' = links s p'.
Proof. unfold links. now rewrite heap_enroll. Qed.

Lemma wf_alloc id s : wf s -> wf (alloc id s).
Proof.
  intros [R C O]. split.
  - intros k p H. rewrite heap_alloc. specialize (R k p H). lia.
  - intros p q. rewrite links_alloc, heap_alloc. intros H.
    specialize (C p q H). lia.
  - assumption.
Qed.

Lemma wf_link p q s :
  wf s -> p < length (heap s) -> q < length (heap s) -> wf (link p q s).
Proof.
  intros [R C O] Hp Hq. split.
  - intros k p'. rewrite shops_link, heap_link. apply R.
  - intros p' q'. rewrite links_link, heap_link by assumption.
    destruct (Nat.eqb p' p); [|apply C].
    intros H. apply in_app_or in H. destruct H as [H|[<-|[]]]; eauto.
  - now rewrite shops_link.
Qed.

Lemma wf_enroll p s : wf s -> p < length (heap s) -> wf (enroll p s).
Proof.
  intros [R C O] Hp. split.
  - intros k p'. rewrite heap_enroll. unfold enroll.
    destruct (nth_error (heap s) p); [|apply R]. simpl. intros H.
    apply StdMapFacts.insert_In in H. destruct H as [[= _ ->]|H]; eauto.
  - intros p' q. rewrite links_enroll, heap_enroll. apply C.
  - unfold enroll. destruct (nth_error (heap s) p); [|assumption].
    simpl. now apply StdMapFacts.insert_ordered.
Qed.

Lemma total_links_alloc id s : total_links (alloc id s) = total_links s.
Proof.
  unfold total_links, alloc. simpl. rewrite map_app, list_sum_app. simpl. lia.
Qed.

Lemma total_links_link p q s :
  p < length (heap s) -> total_links (link p q s) = S (total_links s).
Proof.
  intros H. unfold total_links, link.
  destruct (nth_error (heap s) p) as [o|] eqn:E.
  2:{ apply nth_error_None in E. lia. }
  simpl. pose proof (@list_sum_update (heap s) p o
                       (Shop (identifier o) (connected_shops o ++ [q])) E) as L.
  simpl in L. rewrite length_app in L. simpl in L. lia.
Qed.

Lemma total_links_enroll p s : total_links (enroll p s) = total_links s.
Proof. unfold total_links. now rewrite heap_enroll. Qed.

Lemma degree_le_total s p : degree s p <= total_links s.
Proof.
  unfold degree, links, total_links.
  destruct (nth_error (heap s) p) as [o|] eqn:E; [|simpl; lia].
  eapply list_sum_nth_le.
  rewrite nth_error_map, E. reflexivity.
Qed.

Lemma shops_enroll p s :
  p < length (heap s) ->
  shops (enroll p s) = StdMap.insert (ident s p, p) (shops s).
Proof.
  intros H. unfold enroll, ident.
  destruct (nth_error (heap s) p) eqn:E; [reflexivity|].
  apply nth_error_None in E. lia.
Qed.

Lemma ident_alloc_new id s : ident (alloc id s) (length (heap s)) = id.
Proof.
  unfold ident, alloc. simpl.
  rewrite nth_error_app2, Nat.sub_diag by lia. reflexivity.
Qed.

Lemma ident_alloc_old id s p :
  p < length (heap s) -> ident (alloc id s) p = ident s p.
Proof.
  intros H. unfold ident, alloc. simpl. now rewrite nth_error_app1.
Qed.

Lemma ident_enroll p s p' : ident (enroll p s) p' = ident s p'.
Proof. unfold ident. now rewrite heap_enroll. Qed.

Lemma ident_link p q s p' : ident (link p q s) p' = ident s p'.
Proof.
  unfold ident, link.
  destruct (nth_error (heap s) p) as [o|] eqn:E; [|reflexivity].
  simpl. destruct (Nat.eq_dec p p') as [<-|NE].
  - rewrite nth_error_update_eq, E; [reflexivity|].
    apply nth_error_Some. congruence.
  - now rewrite nth_error_update_neq.
Qed.

(** * Edge insertion *)

Lemma find_valid s k p :
  wf s -> StdMap.find (shops s) k = Some p -> p < length (heap s).
Proof.
  intros W H. apply StdMapFacts.find_In in H. eapply wf_registered; eassumption.
Qed.

Ltac heap_size :=
  repeat (rewrite ?heap_enroll, ?heap_link, ?heap_alloc); try lia.

Ltac exec :=
  repeat first
    [ rewrite push_back_valid by heap_size
    | rewrite register_shop_valid by heap_size
    | progress cbv beta iota ].

Lemma insert_edge_run s shop_id road_to :
  wf s -> insert_edge shop_id road_to s = Return tt (after_edge shop_id road_to s).
Proof.
  intros W. unfold insert_edge, after_edge, try_catch.
  unfold bind at 1. unfold shop_at at 1.
  destruct (StdMap.find (shops s) shop_id) as [shop|] eqn:Eu.
  - pose proof (find_valid _ W Eu) as Vu.
    unfold try_catch, bind at 1. unfold shop_at at 1.
    destruct (StdMap.find (shops s) road_to) as [dest|] eqn:Ev.
    + pose proof (find_valid _ W Ev) as Vv.
      unfold bind. exec. reflexivity.
    + unfold bind. change (new_shop road_to s)
        with (Return (length (heap s)) (alloc road_to s)).
      exec. reflexivity.
  - unfold bind at 1. change (new_shop shop_id s)
      with (Return (length (heap s)) (alloc shop_id s)).
    unfold bind at 1. unfold bind at 1. unfold shop_at at 1.
    rewrite shops_alloc.
    destruct (StdMap.find (shops s) road_to) as [dest|] eqn:Ev.
    + pose proof (find_valid _ W Ev) as Vv.
      unfold bind. exec. reflexivity.
    + unfold bind.
      change (new_shop road_to (alloc shop_id s))
        with (Return (length (heap (alloc shop_id s)))
                     (alloc road_to (alloc shop_id s))).
      rewrite heap_alloc. exec. reflexivity.
Qed.

Lemma shops_after_edge s shop_id road_to :
  shops (after_edge shop_id road_to s) =
  match StdMap.find (shops s) shop_id, StdMap.find (shops s) road_to with
  | Some _, Some _ => shops s
  | Some _, None => StdMap.insert (road_to, length (heap s)) (shops s)
  | None, Some _ => StdMap.insert (shop_id, length (heap s)) (shops s)
  | None, None =>
      StdMap.insert (shop_id, length (heap s))
        (StdMap.insert (road_to, S (length (heap s))) (shops s))
  end.
Proof.
  unfold after_edge.
  destruct (StdMap.find (shops s) shop_id), (StdMap.find (shops s) road_to);
    cbv zeta.
  - now rewrite !shops_link.
  - rewrite shops_enroll by heap_size.
    now rewrite !shops_link, shops_alloc, !ident_link, ident_alloc_new.
  - rewrite shops_enroll by heap_size.
    now rewrite !shops_link, shops_alloc, !ident_link, ident_alloc_new.
  - rewrite shops_enroll by heap_size.
    rewrite ident_enroll, shops_enroll by heap_size.
    rewrite !shops_link, !shops_alloc, !ident_link.
    rewrite ident_alloc_old by heap_size. rewrite ident_alloc_new.
    replace (S (length (heap s))) with (length (heap (alloc shop_id s)))
      by apply heap_alloc.
    now rewrite ident_alloc_new.
Qed.

Lemma wf_after_edge s shop_id road_to :
  wf s -> wf (after_edge shop_id road_to s).
Proof.
  intros W. unfold after_edge.
  destruct (StdMap.find (shops s) shop_id) as [shop|] eqn:Eu;
    destruct (StdMap.find (shops s) road_to) as [dest|] eqn:Ev;
    try (pose proof (find_valid _ W Eu)); try (pose proof (find_valid _ W Ev));
    cbv zeta;
    repeat first [ apply wf_enroll | apply wf_link | apply wf_alloc
                 | assumption | solve [heap_size] ].
Qed.

Lemma total_links_after_edge s shop_id road_to :
  wf s ->
  total_links (after_edge shop_id road_to s) = 2 + total_links s.
Proof.
  intros W. unfold after_edge.
  destruct (StdMap.find (shops s) shop_id) as [shop|] eqn:Eu;
    destruct (StdMap.find (shops s) road_to) as [dest|] eqn:Ev;
    try (pose proof (find_valid _ W Eu)); try (pose proof (find_valid _ W Ev));
    cbv zeta;
    rewrite ?total_links_enroll;
    rewrite total_links_link by heap_size;
    rewrite total_links_link by heap_size;
    rewrite ?total_links_alloc; reflexivity.
Qed.

Lemma heap_after_edge s shop_id road_to :
  length (heap s) <= length (heap (after_edge shop_id road_to s)).
Proof.
  unfold after_edge.
  destruct (StdMap.find (shops s) shop_id), (StdMap.find (shops s) road_to);
    cbv zeta; heap_size.
Qed.

(** An entry of the map survives an edge insertion. *)
Lemma find_after_edge_stable s shop_id road_to k q :
  wf s ->
  StdMap.find (shops s) k = Some q ->
  StdMap.find (shops (after_edge shop_id road_to s)) k = Some q.
Proof.
  intros W H. pose proof (wf_ordered W) as O.
  rewrite shops_after_edge.
  destruct (StdMap.find (shops s) shop_id), (StdMap.find (shops s) road_to);
    repeat (apply StdMapFacts.find_insert_stable;
            [repeat apply StdMapFacts.insert_ordered; assumption|]);
    assumption.
Qed.

(** Both endpoints are keys of the map after an edge insertion. *)
Lemma find_after_edge_endpoints s shop_id road_to :
  wf s ->
  (exists p, StdMap.find (shops (after_edge shop_id road_to s)) shop_id = Some p)
  /\ (exists q, StdMap.find (shops (after_edge shop_id road_to s)) road_to = Some q).
Proof.
  intros W. pose proof (wf_ordered W) as O.
  rewrite shops_after_edge.
  destruct (StdMap.find (shops s) shop_id) as [shop|] eqn:Eu;
    destruct (StdMap.find (shops s) road_to) as [dest|] eqn:Ev.
  - eauto.
  - split.
    + exists shop. now apply StdMapFacts.find_insert_stable.
    + eexists. now apply StdMapFacts.find_insert_absent.
  - split.
    + eexists. now apply StdMapFacts.find_insert_absent.
    + exists dest. now apply StdMapFacts.find_insert_stable.
  - split.
    + destruct (N.eq_dec shop_id road_to) as [->|NE].
      * eexists. apply StdMapFacts.find_insert_stable;
          [now apply StdMapFacts.insert_ordered|].
        now apply StdMapFacts.find_insert_absent.
      * eexists. apply StdMapFacts.find_insert_absent.
        now rewrite StdMapFacts.find_insert_other.
    + eexists. apply StdMapFacts.find_insert_stable;
        [now apply StdMapFacts.insert_ordered|].
      now apply StdMapFacts.find_insert_absent.
Qed.

(** * The edge loop *)

Lemma edge_line_skip shop_id road_to s :
  (shop_id < 1 \/ 1000 < shop_id)%N ->
  edge_line (Some (shop_id, road_to)) s = Return tt s.
Proof.
  intros H. unfold edge_line.
  replace (N.ltb shop_id 1 || N.ltb 1000 shop_id) with true; [reflexivity|].
  symmetry. apply orb_true_iff.
  destruct H; [left|right]; now apply N.ltb_lt.
Qed.

Lemma edge_line_insert shop_id road_to s :
  (1 <= shop_id <= 1000)%N ->
  edge_line (Some (shop_id, road_to)) s = insert_edge shop_id road_to s.
Proof.
  intros H. unfold edge_line.
  replace (N.ltb shop_id 1 || N.ltb 1000 shop_id) with false; [reflexivity|].
  symmetry. apply orb_false_iff. split; apply N.ltb_ge; lia.
Qed.

(** A line either stops the program or leaves a well-formed state with at
    most two more links and every earlier entry of the map in place. *)
Lemma edge_line_spec l s :
  wf s ->
  edge_line l s = Terminate
  \/ exists s',
      edge_line l s = Return tt s' /\ wf s'
      /\ total_links s' <= 2 + total_links s
      /\ (forall k q, StdMap.find (shops s) k = Some q ->
                      StdMap.find (shops s') k = Some q).
Proof.
  intros W. destruct l as [[shop_id road_to]|]; [|now left].
  right. unfold edge_line.
  destruct (N.ltb shop_id 1 || N.ltb 1000 shop_id).
  - exists s. unfold ret. repeat split; auto; try apply W; lia.
  - exists (after_edge shop_id road_to s).
    rewrite insert_edge_run by assumption.
    split; [reflexivity|]. split; [now apply wf_after_edge|].
    split; [rewrite total_links_after_edge by assumption; lia|].
    intros k q. now apply find_after_edge_stable.
Qed.

Lemma edge_loop_spec lines : forall i num_roads s,
  wf s ->
  edge_loop i num_roads lines s = Terminate
  \/ exists s',
      edge_loop i num_roads lines s = Return tt s' /\ wf s'
      /\ total_links s' <= 2 * N.to_nat (num_roads - i) + total_links s
      /\ (forall k q, StdMap.find (shops s) k = Some q ->
                      StdMap.find (shops s') k = Some q).
Proof.
  induction lines as [|l rest IH]; intros i num_roads s W; simpl.
  - right. exists s. unfold ret. repeat split; auto; try apply W; lia.
  - destruct (N.ltb_spec i num_roads) as [L|G].
    + unfold bind.
      destruct (edge_line_spec l W) as [->|(s1 & -> & W1 & T1 & F1)];
        [now left|].
      destruct (IH (i + 1)%N num_roads s1 W1)
        as [->|(s2 & -> & W2 & T2 & F2)]; [now left|].
      right. exists s2. repeat split; auto; try apply W2; lia.
    + right. exists s. unfold ret. repeat split; auto; try apply W; lia.
Qed.

(** * Finalized stores *)

Lemma finalized_wf s : finalized s -> wf s.
Proof.
  intros (n & lines & _ & E).
  destruct (edge_loop_spec lines 0%N n wf_initial) as [T|(s' & E' & W & _)].
  - congruence.
  - rewrite E in E'. now injection E' as ->.
Qed.

Lemma finalized_total_links s : finalized s -> total_links s <= 2000.
Proof.
  intros (n & lines & B & E).
  destruct (edge_loop_spec lines 0%N n wf_initial)
    as [T|(s' & E' & _ & L & _)].
  - congruence.
  - rewrite E in E'. injection E' as <-.
    change (total_links initial) with 0 in L. lia.
Qed.

(** * [reduce] against the reference algorithm *)

Lemma impact_fold_nowrap s core l : forall acc,
  (acc + N.of_nat
           (list_sum (map (fun w => if is_in core w then O else degree s w) l))
   < 2 ^ 64)%N ->
  fold_left
    (fun impact each_connection =>
       if not_found core each_connection
       then wrap64 (impact + N.of_nat (degree s each_connection))
       else impact)
    l acc
  = (acc + N.of_nat
             (list_sum (map (fun w => if is_in core w then O else degree s w) l)))%N.
Proof.
  induction l as [|c l IH]; intros acc H; simpl in *.
  - now rewrite N.add_0_r.
  - change (not_found core c) with (negb (is_in core c)).
    destruct (is_in core c); simpl in *.
    + now apply IH.
    + unfold wrap64. rewrite N.mod_small by lia.
      rewrite IH by lia. lia.
Qed.

Lemma spec_impact_bound s v : spec_impact s v <= degree s v * total_links s.
Proof.
  unfold spec_impact, degree.
  induction (links s v) as [|w l IH]; simpl; [lia|].
  pose proof (degree_le_total s w) as H. unfold degree in H.
  destruct (is_in (Core s) w); lia.
Qed.

Lemma reduce_value_spec s :
  (forall v, In v (Core s) -> (N.of_nat (spec_impact s v) < 2 ^ 64)%N) ->
  reduce_value s = N.of_nat (spec_reduce s).
Proof.
  intros Fit. unfold reduce_value, spec_reduce.
  rewrite (map_ext_in _ (spec_impact s)).
  2:{ intros v Hv. unfold impact_of. rewrite impact_fold_nowrap.
      - fold (spec_impact s v). rewrite N.add_0_l. apply Nat2N.id.
      - fold (spec_impact s v). rewrite N.add_0_l. now apply Fit. }
  unfold ties. rewrite length_filter_map.
  fold (spec_I s). fold (Winners s). cbv zeta.
  destruct (Nat.ltb_spec (length (Winners s)) 2);
    destruct (Nat.leb_spec 2 (length (Winners s))); auto; lia.
Qed.

(** On any well-formed state with a node whose impacts fit 64 bits,
    [reduce] returns the reference value. *)
Lemma reduce_reference_wf (sorter : StdSort) s :
  wf s -> shops s <> [] ->
  (forall v, In v (Core s) -> (N.of_nat (spec_impact s v) < 2 ^ 64)%N) ->
  @reduce sorter s = Return (N.of_nat (spec_reduce s)) s.
Proof.
  intros W NE Fit. rewrite reduce_returns by assumption.
  f_equal. now apply reduce_value_spec.
Qed.

Lemma finalized_fit s v :
  finalized s -> (N.of_nat (spec_impact s v) < 2 ^ 64)%N.
Proof.
  intros F. pose proof (finalized_total_links F) as T.
  pose proof (spec_impact_bound s v) as B.
  pose proof (degree_le_total s v) as D.
  assert (spec_impact s v <= 2000 * 2000) by nia.
  apply N.lt_le_trans with (N.of_nat (S (2000 * 2000))); [lia|].
  vm_compute. discriminate.
Qed.

(** * The diagnostic passes of [main] *)

Lemma number_of_connections_returns s :
  wf s -> number_of_connections s = Return (connections_count s) s.
Proof.
  intros W. unfold number_of_connections, bind at 1, get_shops.
  apply for_fold_reads. intros acc [k p] H. unfold bind.
  rewrite get_connected_shops_valid; [reflexivity|].
  eapply wf_registered; eassumption.
Qed.

Lemma print_network_returns s : wf s -> print_network s = Return tt s.
Proof.
  intros W. unfold print_network, bind at 1, get_shops. unfold bind at 1.
  rewrite (for_each_reads _
             (fun each_pair => map (ident s) (links s (snd each_pair))));
    [reflexivity|].
  intros [k p] H. pose proof (wf_registered W _ _ H) as V. simpl snd.
  unfold bind at 1. rewrite get_connected_shops_valid by assumption.
  apply for_each_reads. intros q Hq. unfold bind.
  rewrite get_identifier_valid by assumption.
  apply get_identifier_valid. eapply wf_connected; eassumption.
Qed.

Section MainRuns.

Context {sorter : StdSort}.

Lemma header_accepted num_shops num_roads lines :
  (2 <= num_shops <= 1000)%N -> (1 <= num_roads <= 1000)%N ->
  main (Some (num_shops, num_roads)) lines =
  (edge_loop 0%N num_roads lines ;;
   print_network ;;
   number_of_connections ;;
   reduce).
Proof.
  intros H1 H2. unfold main.
  replace (N.ltb num_shops 2 || N.ltb 1000 num_shops) with false
    by (symmetry; apply orb_false_iff; split; apply N.ltb_ge; lia).
  replace (N.ltb num_roads 1 || N.ltb 1000 num_roads) with false
    by (symmetry; apply orb_false_iff; split; apply N.ltb_ge; lia).
  reflexivity.
Qed.

(** [main] prints what [reduce] returns on the state that the edge loop
    leaves. *)
Lemma main_prints num_shops num_roads lines s :
  (2 <= num_shops <= 1000)%N -> (1 <= num_roads <= 1000)%N ->
  edge_loop 0%N num_roads lines initial = Return tt s ->
  main (Some (num_shops, num_roads)) lines initial = reduce s.
Proof.
  intros H1 H2 E. rewrite header_accepted by assumption.
  assert (W : wf s).
  { apply finalized_wf. exists num_roads, lines. split; [lia|assumption]. }
  unfold bind at 1. rewrite E.
  unfold bind at 1. rewrite print_network_returns by assumption.
  unfold bind at 1. rewrite number_of_connections_returns by assumption.
  reflexivity.
Qed.

Lemma reduce_empty s : shops s = [] -> reduce s = Undefined.
Proof.
  intros E. unfold reduce, bind at 1, get_shops. rewrite E. simpl map.
  unfold bind at 1, sort_by_connections, bind at 1. simpl for_each.
  unfold ret at 1.
  destruct (std_sort (fun lhs rhs => Nat.ltb (degree s rhs) (degree s lhs)) [])
    as [|x rest] eqn:S.
  - reflexivity.
  - pose proof (std_sort_perm
                  (fun lhs rhs => Nat.ltb (degree s rhs) (degree s lhs)) [])
      as P.
    rewrite S in P. symmetry in P. apply Permutation_nil in P. discriminate.
Qed.

End MainRuns.

Lemma Core_nonempty s : shops s <> [] -> Core s <> [].
Proof.
  intros NE.
  assert (K : map (degree s) (nodes s) <> []).
  { unfold nodes. destruct (shops s); [congruence|discriminate]. }
  apply list_max_attained in K. fold (spec_D s) in K.
  apply in_map_iff in K. destruct K as (v & E & Hv).
  assert (In v (Core s)) as Hin.
  { apply filter_In. split; [assumption|]. now apply Nat.eqb_eq. }
  destruct (Core s); [contradiction|discriminate].
Qed.

Lemma reduce_value_cases s : (reduce_value s = 0 \/ 2 <= reduce_value s)%N.
Proof.
  unfold reduce_value. cbv zeta.
  destruct (Nat.ltb_spec
              (ties (map (fun el => N.to_nat (impact_of s (Core s) el)) (Core s)))
              2); [now left|right; lia].
Qed.

Lemma edge_loop_all_skipped lines : forall i num_roads s,
  Forall (fun l => exists shop_id road_to,
              l = Some (shop_id, road_to) /\ (shop_id < 1 \/ 1000 < shop_id)%N)
         lines ->
  edge_loop i num_roads lines s = Return tt s.
Proof.
  induction lines as [|l rest IH]; intros i num_roads s F; simpl.
  - reflexivity.
  - apply Forall_cons_iff in F. destruct F as [(a & b & -> & R) F].
    destruct (N.ltb i num_roads); [|reflexivity].
    unfold bind. rewrite edge_line_skip by assumption. now apply IH.
Qed.

(** A self-loop on an identifier that the map holds: the registered object
    gets both entries and nothing is allocated. *)
Lemma self_loop_registered s u p :
  wf s -> StdMap.find (shops s) u = Some p ->
  insert_edge u u s = Return tt (link p p (link p p s))
  /\ degree (link p p (link p p s)) p = 2 + degree s p
  /\ length (heap (link p p (link p p s))) = length (heap s)
  /\ shops (link p p (link p p s)) = shops s.
Proof.
  intros W E. pose proof (find_valid _ W E) as V.
  rewrite insert_edge_run by assumption. unfold after_edge. rewrite E.
  split; [reflexivity|]. split; [|split].
  - unfold degree. rewrite links_link by heap_size.
    rewrite Nat.eqb_refl. rewrite links_link by assumption.
    rewrite Nat.eqb_refl. rewrite !length_app. simpl. lia.
  - heap_size.
  - now rewrite !shops_link.
Qed.

(** A self-loop on an identifier that the map does not hold: two objects are
    allocated under it, the second is registered and holds one entry, the
    first stays outside the map. *)
Lemma self_loop_unregistered s u :
  wf s -> StdMap.find (shops s) u = None ->
  exists s',
    insert_edge u u s = Return tt s'
    /\ length (heap s') = 2 + length (heap s)
    /\ ident s' (length (heap s)) = u
    /\ ident s' (S (length (heap s))) = u
    /\ StdMap.find (shops s') u = Some (S (length (heap s)))
    /\ links s' (S (length (heap s))) = [length (heap s)]
    /\ links s' (length (heap s)) = [S (length (heap s))].
Proof.
  intros W E. exists (after_edge u u s).
  split; [now apply insert_edge_run|].
  pose proof (shops_after_edge s u u) as Sh. rewrite E in Sh.
  unfold after_edge. unfold after_edge in Sh. rewrite E in *. cbv zeta in *.
  set (n := length (heap s)) in *.
  assert (La : forall p, links (alloc u (alloc u s)) p = links s p)
    by (intros p; now rewrite !links_alloc).
  assert (Dn : links s n = []).
  { unfold links. replace (nth_error (heap s) n) with (@None shop); auto.
    symmetry. apply nth_error_None. unfold n. lia. }
  assert (DSn : links s (S n) = []).
  { unfold links. replace (nth_error (heap s) (S n)) with (@None shop); auto.
    symmetry. apply nth_error_None. unfold n. lia. }
  split; [unfold n; heap_size|].
  split.
  { rewrite !ident_enroll, !ident_link.
    rewrite ident_alloc_old by (unfold n; heap_size).
    apply ident_alloc_new. }
  split.
  { rewrite !ident_enroll, !ident_link.
    replace (S n) with (length (heap (alloc u s))) by apply heap_alloc.
    apply ident_alloc_new. }
  split.
  { rewrite Sh. apply StdMapFacts.find_insert_stable.
    - apply StdMapFacts.insert_ordered. apply W.
    - now apply StdMapFacts.find_insert_absent. }
  split.
  - rewrite !links_enroll.
    rewrite links_link by (unfold n; heap_size).
    replace (Nat.eqb (S n) n) with false
      by (symmetry; apply Nat.eqb_neq; lia).
    rewrite links_link by (unfold n; heap_size).
    rewrite Nat.eqb_refl, La, DSn. reflexivity.
  - rewrite !links_enroll.
    rewrite links_link by (unfold n; heap_size).
    rewrite Nat.eqb_refl.
    rewrite links_link by (unfold n; heap_size).
    replace (Nat.eqb n (S n)) with false
      by (symmetry; apply Nat.eqb_neq; lia).
    rewrite La, Dn. reflexivity.
Qed.

(** * [number_of_connections] when every object is registered *)

Lemma nodes_insert_absent m k p :
  StdMap.find m k = None ->
  Permutation (map snd (StdMap.insert (k, p) m)) (p :: map snd m).
Proof.
  induction m as [|[k1 v1] m IH]; simpl; intros H.
  - reflexivity.
  - destruct (N.eqb_spec k k1) as [->|NE]; [discriminate|].
    destruct (N.compare_spec k k1) as [E|L|G]; simpl.
    + contradiction.
    + reflexivity.
    + rewrite IH by assumption. apply perm_swap.
Qed.

Lemma degrees_of_heap (l : list shop) :
  map (fun p => match nth_error l p with
                | Some o => length (connected_shops o)
                | None => 0
                end)
      (seq 0 (length l))
  = map (fun o => length (connected_shops o)) l.
Proof.
  induction l as [|o l IH]; simpl; [reflexivity|].
  f_equal. rewrite <- seq_shift, map_map. exact IH.
Qed.

Lemma sum_degrees_registered s :
  all_registered s -> list_sum (map (degree s) (nodes s)) = total_links s.
Proof.
  intros R. rewrite (Permutation_list_sum (Permutation_map (degree s) R)).
  unfold total_links. rewrite <- degrees_of_heap.
  f_equal. apply map_ext. intros p. unfold degree, links.
  now destruct (nth_error (heap s) p).
Qed.

Lemma count_fold_nowrap (l : list ptr) : forall c,
  (c + N.of_nat (length l) < 2 ^ 64)%N ->
  fold_left (fun c _ => wrap64 (c + 1)) l c = (c + N.of_nat (length l))%N.
Proof.
  induction l as [|x l IH]; intros c H; simpl length in *.
  - simpl. lia.
  - simpl fold_left. unfold wrap64 at 2. rewrite N.mod_small by lia.
    rewrite IH by lia. lia.
Qed.

Lemma connections_fold_nowrap s (m : StdMap.t) : forall acc,
  (acc + N.of_nat (list_sum (map (degree s) (map snd m))) < 2 ^ 64)%N ->
  fold_left
    (fun counter each_pair =>
       fold_left (fun c _ => wrap64 (c + 1)) (links s (snd each_pair)) counter)
    m acc
  = (acc + N.of_nat (list_sum (map (degree s) (map snd m))))%N.
Proof.
  induction m as [|[k p] m IH]; intros acc H;
    cbn [fold_left map snd] in *; simpl list_sum in *.
  - lia.
  - unfold degree at 1 in H. rewrite count_fold_nowrap by lia.
    rewrite IH by lia. unfold degree. lia.
Qed.

Lemma connections_count_registered s :
  all_registered s -> (N.of_nat (total_links s) < 2 ^ 64)%N ->
  connections_count s = N.of_nat (total_links s).
Proof.
  intros R B. unfold connections_count.
  rewrite connections_fold_nowrap; fold (nodes s);
    rewrite sum_degrees_registered by assumption; lia.
Qed.

Lemma all_registered_after_edge s shop_id road_to :
  wf s -> all_registered s ->
  (shop_id = road_to -> StdMap.find (shops s) shop_id <> None) ->
  all_registered (after_edge shop_id road_to s).
Proof.
  intros W R Fresh. unfold all_registered, nodes in *.
  rewrite shops_after_edge. unfold after_edge.
  destruct (StdMap.find (shops s) shop_id) as [shop|] eqn:Eu;
    destruct (StdMap.find (shops s) road_to) as [dest|] eqn:Ev; cbv zeta.
  - now rewrite !heap_link.
  - rewrite heap_enroll, !heap_link, heap_alloc.
    rewrite nodes_insert_absent by assumption.
    rewrite seq_S. simpl. rewrite <- Permutation_cons_append.
    now constructor.
  - rewrite heap_enroll, !heap_link, heap_alloc.
    rewrite nodes_insert_absent by assumption.
    rewrite seq_S. simpl. rewrite <- Permutation_cons_append.
    now constructor.
  - assert (shop_id <> road_to) as NE by (intros ->; now apply Fresh).
    rewrite !heap_enroll, !heap_link, !heap_alloc.
    rewrite nodes_insert_absent
      by (now rewrite StdMapFacts.find_insert_other).
    rewrite nodes_insert_absent by assumption.
    rewrite !seq_S. simpl.
    rewrite <- Permutation_cons_append. rewrite perm_swap.
    constructor. rewrite <- Permutation_cons_append. now constructor.
Qed.

(** An insertion other than a self-loop on an identifier that the map does
    not hold adds 2 to what [number_of_connections] counts. *)
Lemma connections_after_edge s shop_id road_to :
  wf s -> all_registered s ->
  (shop_id = road_to -> StdMap.find (shops s) shop_id <> None) ->
  (N.of_nat (total_links s) + 2 < 2 ^ 64)%N ->
  connections_count (after_edge shop_id road_to s)
  = (connections_count s + 2)%N.
Proof.
  intros W R Fresh B.
  pose proof (total_links_after_edge shop_id road_to W) as T.
  rewrite !connections_count_registered;
    auto using all_registered_after_edge; lia.
Qed.

Lemma edge_loop_registered lines : forall i num_roads s s',
  wf s -> all_registered s ->
  Forall no_self_loop lines ->
  edge_loop i num_roads lines s = Return tt s' ->
  all_registered s'
  /\ total_links s' = 2 * insertions i num_roads lines + total_links s.
Proof.
  induction lines as [|l rest IH]; intros i num_roads s s' W R F E;
    simpl in E |- *.
  - injection E as <-. auto.
  - destruct (N.ltb i num_roads); [|injection E as <-; auto].
    apply Forall_cons_iff in F. destruct F as [Hl F].
    unfold bind in E. destruct l as [[shop_id road_to]|]; [|discriminate].
    unfold edge_line in E.
    destruct (N.ltb shop_id 1 || N.ltb 1000 shop_id).
    + unfold ret in E. destruct (IH _ _ _ _ W R F E) as [R' T'].
      split; [assumption|lia].
    + rewrite insert_edge_run in E by assumption.
      destruct (IH _ _ _ _ (wf_after_edge shop_id road_to W)
                   (all_registered_after_edge W R
                      (fun e => False_ind _ (Hl e))) F E) as [R' T'].
      split; [assumption|].
      rewrite T', total_links_after_edge by assumption. lia.
Qed.

(** With no self-loop among the lines, [number_of_connections] returns
    twice the number of insertions. *)
Lemma connections_twice_insertions num_roads lines s :
  (num_roads <= 1000)%N ->
  Forall no_self_loop lines ->
  edge_loop 0%N num_roads lines initial = Return tt s ->
  number_of_connections s
  = Return (N.of_nat (2 * insertions 0%N num_roads lines)) s.
Proof.
  intros B F E.
  assert (Fin : finalized s) by (exists num_roads, lines; auto).
  pose proof (finalized_total_links Fin) as T.
  destruct (edge_loop_registered 0%N num_roads wf_initial
              (Permutation_refl _) F E) as [R T'].
  change (total_links initial) with 0 in T'.
  rewrite number_of_connections_returns by (now apply finalized_wf).
  f_equal. rewrite connections_count_registered; [f_equal; lia|assumption|].
  apply N.lt_le_trans with (N.of_nat 2001); [lia|].
  vm_compute. discriminate.
Qed.

Lemma two_hubs_finalized : finalized two_hubs.
Proof.
  exists 5%N,
    [Some (1, 2); Some (1, 3); Some (1, 4); Some (2, 5); Some (2, 6)]%N.
  split; [vm_compute; discriminate|reflexivity].
Defined.

(** * The claims *)

(** C1. On every finalized store that holds a node, [reduce] returns the value
    of the reference algorithm of the specification: with D the largest
    neighbor-sequence length among the stored nodes, Core the nodes of length
    D, impact(v) the sum over the neighbor occurrences of v outside Core (by
    identity) of the occurrence's length and I the largest impact in Core, the
    number of Core nodes of impact I when there are at least two of them, and
    0 otherwise; whatever order [std::sort] picks among ties. The store is
    left as it was. *)
Theorem reduce_matches_reference (sorter : StdSort) (s : state) :
  finalized s -> shops s <> [] ->
  @reduce sorter s = Return (N.of_nat (spec_reduce s)) s.
Proof.
  intros F NE. rewrite reduce_returns by (auto using finalized_wf).
  f_equal. apply reduce_value_spec. intros v _. now apply finalized_fit.
Qed.

Lemma reduce_matches_reference_witness :
  finalized two_hubs /\ shops two_hubs <> []
  /\ @reduce insertion_sorter two_hubs = Return 2%N two_hubs.
Proof.
  assert (NE : shops two_hubs <> []) by discriminate.
  split; [exact two_hubs_finalized|]. split; [exact NE|].
  exact (reduce_matches_reference insertion_sorter two_hubs_finalized NE).
Defined.

(** C1, as stated for every finalized store, fails on the empty one: the
    state in which no line was inserted is finalized, and [reduce] is
    undefined there (the [front()] of the empty vector), so it returns no
    value, the reference one included. *)
Lemma reduce_matches_reference_counterexample :
  finalized initial
  /\ @reduce insertion_sorter initial = Undefined
  /\ @reduce insertion_sorter initial
     <> Return (N.of_nat (spec_reduce initial)) initial.
Proof.
  split.
  - exists 1%N, [Some (0, 7)%N]. split; [vm_compute; discriminate|reflexivity].
  - split; [reflexivity|discriminate].
Qed.

(** C2 (the code departs from it). The road 5-5 read into an empty network:
    two objects are constructed with identifier 5, the one the map holds under
    5 ends with a single connection, and the other stays outside the map. *)
Theorem self_loop_on_fresh_identifier :
  insert_edge 5%N 5%N initial = Return tt lone_self_loop
  /\ map identifier (heap lone_self_loop) = [5%N; 5%N]
  /\ StdMap.find (shops lone_self_loop) 5%N = Some 1
  /\ degree lone_self_loop 1 = 1
  /\ nodes lone_self_loop = [1].
Proof. repeat split. Qed.

(** C3. On every well-formed store that holds a node, [reduce] returns, and
    what it returns is 0 or at least 2. *)
Theorem reduce_zero_or_at_least_two (sorter : StdSort) (s : state) :
  wf s -> shops s <> [] ->
  exists n, @reduce sorter s = Return n s /\ (n = 0 \/ 2 <= n)%N.
Proof.
  intros W NE. exists (reduce_value s).
  split; [now apply reduce_returns|apply reduce_value_cases].
Qed.

Lemma reduce_zero_or_at_least_two_witness :
  exists n, @reduce insertion_sorter lone_self_loop = Return n lone_self_loop
            /\ (n = 0 \/ 2 <= n)%N.
Proof.
  apply (reduce_zero_or_at_least_two insertion_sorter).
  - apply wfb_sound. reflexivity.
  - discriminate.
Defined.

(** C4 (the code departs from it). After the one insertion of the road 5-5
    into an empty network, [number_of_connections] returns 1, not 2. *)
Theorem connections_after_fresh_self_loop :
  (edge_loop 0%N 1%N [Some (5%N, 5%N)] ;; number_of_connections) initial
  = Return 1%N lone_self_loop.
Proof. reflexivity. Qed.

(** C5. On every well-formed store that holds a node, [reduce] returns a
    value: neither [front()] is read on an empty vector (the model makes that
    undefined) and no pointer it follows is dangling. The vector of impacts
    has one entry per member of Core, which is not empty. *)
Theorem reduce_total (sorter : StdSort) (s : state) :
  wf s -> shops s <> [] ->
  (exists n, @reduce sorter s = Return n s) /\ Core s <> [].
Proof.
  intros W NE. split.
  - exists (reduce_value s). now apply reduce_returns.
  - now apply Core_nonempty.
Qed.

Lemma reduce_total_witness :
  (exists n, @reduce insertion_sorter two_hubs = Return n two_hubs)
  /\ Core two_hubs <> [].
Proof.
  apply (reduce_total insertion_sorter).
  - apply wfb_sound. reflexivity.
  - discriminate.
Defined.

(** C6. With an accepted header and edge lines that all carry a first
    identifier outside [1,1000], every line is skipped, the state stays the
    initial one (no object, empty map), and [main] still calls [reduce]: the
    sorted vector is empty, its [front()] is undefined, and so is the run. *)
Theorem skipped_lines_reach_empty_front
    (sorter : StdSort) (num_shops num_roads : uint64) (lines : list line) :
  (2 <= num_shops <= 1000)%N -> (1 <= num_roads <= 1000)%N ->
  Forall (fun l => exists shop_id road_to,
              l = Some (shop_id, road_to) /\ (shop_id < 1 \/ 1000 < shop_id)%N)
         lines ->
  edge_loop 0%N num_roads lines initial = Return tt initial
  /\ @sort_by_connections sorter (map snd (shops initial)) initial
     = Return [] initial
  /\ front (@nil ptr) initial = Undefined
  /\ @reduce sorter initial = Undefined
  /\ @main sorter (Some (num_shops, num_roads)) lines initial = Undefined.
Proof.
  intros H1 H2 F.
  pose proof (edge_loop_all_skipped 0%N num_roads initial F) as E.
  split; [exact E|]. split; [|split; [reflexivity|split]].
  - rewrite sort_by_connections_valid by (intros p []). f_equal.
    apply Permutation_nil. symmetry. apply std_sort_perm.
  - now apply reduce_empty.
  - rewrite (main_prints _ H1 H2 E). now apply reduce_empty.
Qed.

Lemma skipped_lines_reach_empty_front_witness :
  @main insertion_sorter (Some (2, 1)%N) [Some (0, 7)%N] initial = Undefined.
Proof.
  refine (proj2 (proj2 (proj2 (proj2
    (skipped_lines_reach_empty_front insertion_sorter
       (num_shops := 2%N) (num_roads := 1%N) (lines := [Some (0, 7)%N])
       _ _ _))))).
  - split; vm_compute; discriminate.
  - split; vm_compute; discriminate.
  - constructor; [|constructor].
    exists 0%N, 7%N. split; [reflexivity|left; reflexivity].
Defined.

(** C7. One road between two different identifiers, read into an empty
    network: two objects, each holding the other; both have one connection
    and make up Core, each has impact 0, both are winners, and [reduce]
    returns 2. *)
Theorem minimal_graph_reduces_to_two (sorter : StdSort) (u v : uint64) :
  u <> v ->
  let s := State [Shop u [1]; Shop v [0]] (StdMap.insert (u, 0) [(v, 1)]) in
  insert_edge u v initial = Return tt s
  /\ degree s 0 = 1 /\ degree s 1 = 1
  /\ spec_D s = 1
  /\ Permutation (Core s) [0; 1]
  /\ spec_impact s 0 = 0 /\ spec_impact s 1 = 0
  /\ spec_I s = 0
  /\ Permutation (Winners s) [0; 1]
  /\ @reduce sorter s = Return 2%N s.
Proof.
  intros NE s.
  assert (R : insert_edge u v initial = Return tt s) by reflexivity.
  assert (W : wf s) by exact (wf_after_edge u v wf_initial).
  assert (Sh : shops s = [(u, 0); (v, 1)] \/ shops s = [(v, 1); (u, 0)]).
  { subst s. simpl. destruct (N.compare_spec u v); auto. contradiction. }
  assert (Facts :
    spec_D s = 1 /\ Permutation (Core s) [0; 1]
    /\ spec_impact s 0 = 0 /\ spec_impact s 1 = 0 /\ spec_I s = 0
    /\ Permutation (Winners s) [0; 1] /\ spec_reduce s = 2).
  { unfold spec_reduce, Winners, spec_I, spec_impact, Core, spec_D, nodes.
    destruct Sh as [-> | ->]; simpl;
      repeat split; auto; apply perm_swap. }
  destruct Facts as (HD & HC & H0 & H1 & HI & HW & HR).
  repeat (split; [assumption || reflexivity|]).
  rewrite reduce_returns by (assumption || (destruct Sh as [E|E]; rewrite E; discriminate)).
  f_equal. rewrite reduce_value_spec; [now rewrite HR|].
  intros p Hp. apply (Permutation_in _ HC) in Hp.
  destruct Hp as [<-|[<-|[]]]; [rewrite H0|rewrite H1]; reflexivity.
Qed.

Lemma minimal_graph_reduces_to_two_witness :
  @reduce insertion_sorter
     (State [Shop 1%N [1]; Shop 2%N [0]] [(1%N, 0); (2%N, 1)])
  = Return 2%N (State [Shop 1%N [1]; Shop 2%N [0]] [(1%N, 0); (2%N, 1)]).
Proof.
  refine (proj2 (proj2 (proj2 (proj2 (proj2 (proj2 (proj2 (proj2 (proj2
    (minimal_graph_reduces_to_two insertion_sorter
       (u := 1%N) (v := 2%N) _)))))))))).
  discriminate.
Defined.

(** C8. An edge line whose first identifier is outside [1,1000] changes
    nothing and the loop goes on with the next line; on any other line the
    second identifier, whatever its value, is a key of the map afterwards. *)
Theorem range_check_first_identifier_only
    (s : state) (shop_id road_to : uint64) :
  wf s ->
  ((shop_id < 1 \/ 1000 < shop_id)%N ->
   edge_line (Some (shop_id, road_to)) s = Return tt s
   /\ forall i num_roads rest,
       (i < num_roads)%N ->
       edge_loop i num_roads (Some (shop_id, road_to) :: rest) s
       = edge_loop (i + 1)%N num_roads rest s)
  /\ ((1 <= shop_id <= 1000)%N ->
      exists s' dest,
        edge_line (Some (shop_id, road_to)) s = Return tt s'
        /\ StdMap.find (shops s') road_to = Some dest).
Proof.
  intros W. split.
  - intros Out. split; [now apply edge_line_skip|].
    intros i num_roads rest L. cbn [edge_loop].
    replace (N.ltb i num_roads) with true by (symmetry; now apply N.ltb_lt).
    unfold bind. now rewrite edge_line_skip.
  - intros In_range. rewrite edge_line_insert by assumption.
    destruct (find_after_edge_endpoints shop_id road_to W) as [_ [dest E]].
    exists (after_edge shop_id road_to s), dest.
    split; [now apply insert_edge_run|assumption].
Qed.

Lemma range_check_first_identifier_only_witness :
  edge_line (Some (0, 7)%N) initial = Return tt initial
  /\ exists s' dest,
      edge_line (Some (5, 5002)%N) initial = Return tt s'
      /\ StdMap.find (shops s') 5002%N = Some dest.
Proof.
  split.
  - apply (range_check_first_identifier_only 0%N 7%N wf_initial).
    left. reflexivity.
  - apply (range_check_first_identifier_only 5%N 5002%N wf_initial).
    split; vm_compute; discriminate.
Defined.

(** C9. On every well-formed store that holds a node, [reduce] returns with
    the state it was called in, heap and map alike, and a second call returns
    the same value, even when [std::sort] orders ties differently. *)
Theorem reduce_repeatable (sorter sorter' : StdSort) (s : state) :
  wf s -> shops s <> [] ->
  exists n,
    @reduce sorter s = Return n s
    /\ (a <- @reduce sorter ;; b <- @reduce sorter' ;; ret (a, b)) s
       = Return (n, n) s.
Proof.
  intros W NE. exists (reduce_value s).
  split; [now apply reduce_returns|].
  unfold bind. now rewrite !reduce_returns.
Qed.

Lemma reduce_repeatable_witness :
  exists n,
    @reduce insertion_sorter two_hubs = Return n two_hubs
    /\ (a <- @reduce insertion_sorter ;;
        b <- @reduce insertion_sorter ;; ret (a, b)) two_hubs
       = Return (n, n) two_hubs.
Proof.
  apply (reduce_repeatable insertion_sorter insertion_sorter).
  - apply wfb_sound. reflexivity.
  - discriminate.
Defined.

(** C9, as stated for every finalized store, fails on the empty one: the
    state in which no line was inserted is finalized, and there neither one
    call of [reduce] nor two in succession return anything. *)
Lemma reduce_repeatable_counterexample :
  finalized initial
  /\ ~ (exists n,
          @reduce insertion_sorter initial = Return n initial
          /\ (a <- @reduce insertion_sorter ;;
              b <- @reduce insertion_sorter ;; ret (a, b)) initial
             = Return (n, n) initial).
Proof.
  split.
  - exists 1%N, [Some (0, 7)%N]. split; [vm_compute; discriminate|reflexivity].
  - intros (n & R & _). discriminate R.
Qed.

(** C10. In a well-formed state, [register_shop] on an object whose
    identifier is already a key leaves the state as it is; no
    [register_shop] and no run of the edge loop changes the object that a key
    is mapped to. *)
Theorem register_shop_keeps_first (s : state) :
  wf s ->
  (forall p o q,
      nth_error (heap s) p = Some o ->
      StdMap.find (shops s) (identifier o) = Some q ->
      register_shop p s = Return tt s)
  /\ (forall p s' k q,
         register_shop p s = Return tt s' ->
         StdMap.find (shops s) k = Some q ->
         StdMap.find (shops s') k = Some q)
  /\ (forall i num_roads lines s' k q,
         edge_loop i num_roads lines s = Return tt s' ->
         StdMap.find (shops s) k = Some q ->
         StdMap.find (shops s') k = Some q).
Proof.
  intros W. split; [|split].
  - intros p o q Ho Hq.
    unfold register_shop, bind, get_identifier, bind, deref. rewrite Ho.
    unfold ret.
    rewrite (@StdMapFacts.insert_present _ _ p _ (wf_ordered W) Hq).
    now destruct s.
  - intros p s' k q R Hq.
    unfold register_shop, bind, get_identifier, bind, deref, ret in R.
    destruct (nth_error (heap s) p) as [o|]; [|discriminate].
    injection R as <-. simpl.
    now apply StdMapFacts.find_insert_stable; [apply W|].
  - intros i num_roads lines s' k q R Hq.
    destruct (edge_loop_spec lines i num_roads W)
      as [T|(s1 & E & _ & _ & Stable)]; [congruence|].
    rewrite R in E. injection E as <-. now apply Stable.
Qed.

Lemma register_shop_keeps_first_witness :
  register_shop 0 lone_self_loop = Return tt lone_self_loop.
Proof.
  refine (proj1 (register_shop_keeps_first (s := lone_self_loop) _)
                0 (Shop 5%N [1]) 1 _ _).
  - apply wfb_sound. reflexivity.
  - reflexivity.
  - reflexivity.
Defined.

(** * Further properties *)

(** ** What an edge insertion does to the heap and to the map *)

Lemma links_beyond s x : length (heap s) <= x -> links s x = [].
Proof.
  intros H. unfold links.
  replace (nth_error (heap s) x) with (@None shop); [reflexivity|].
  symmetry. now apply nth_error_None.
Qed.

Lemma ident_beyond s x : length (heap s) <= x -> ident s x = 0%N.
Proof.
  intros H. unfold ident.
  replace (nth_error (heap s) x) with (@None shop); [reflexivity|].
  symmetry. now apply nth_error_None.
Qed.

Lemma src_ptr_valid s shop_id road_to :
  wf s -> src_ptr shop_id s < length (heap (after_edge shop_id road_to s)).
Proof.
  intros W. unfold src_ptr, after_edge.
  destruct (StdMap.find (shops s) shop_id) as [shop|] eqn:Eu;
    destruct (StdMap.find (shops s) road_to) as [dest|] eqn:Ev;
    try (pose proof (find_valid _ W Eu)); cbv zeta; heap_size.
Qed.

Lemma dst_ptr_valid s shop_id road_to :
  wf s -> dst_ptr shop_id road_to s < length (heap (after_edge shop_id road_to s)).
Proof.
  intros W. unfold dst_ptr, after_edge.
  destruct (StdMap.find (shops s) shop_id) as [shop|] eqn:Eu;
    destruct (StdMap.find (shops s) road_to) as [dest|] eqn:Ev;
    try (pose proof (find_valid _ W Ev)); cbv zeta; heap_size.
Qed.

Lemma heap_length_after_edge s shop_id road_to :
  length (heap (after_edge shop_id road_to s))
  = length (heap s)
    + match StdMap.find (shops s) shop_id with Some _ => 0 | None => 1 end
    + match StdMap.find (shops s) road_to with Some _ => 0 | None => 1 end.
Proof.
  unfold after_edge.
  destruct (StdMap.find (shops s) shop_id), (StdMap.find (shops s) road_to);
    cbv zeta; heap_size.
Qed.

Ltac eqb_cases :=
  repeat match goal with
         | |- context [Nat.eqb ?a ?b] =>
             destruct (Nat.eqb_spec a b); try subst; try lia
         end.

(** Each of the two objects gets the other at the end of its vector, the
    destination first; nothing else changes in any vector. *)
Lemma links_after_edge s shop_id road_to x :
  wf s ->
  links (after_edge shop_id road_to s) x
  = links s x
    ++ (if Nat.eqb x (dst_ptr shop_id road_to s) then [src_ptr shop_id s] else [])
    ++ (if Nat.eqb x (src_ptr shop_id s) then [dst_ptr shop_id road_to s] else []).
Proof.
  intros W. unfold after_edge, src_ptr, dst_ptr.
  destruct (StdMap.find (shops s) shop_id) as [shop|] eqn:Eu;
    destruct (StdMap.find (shops s) road_to) as [dest|] eqn:Ev;
    try (pose proof (find_valid _ W Eu)); try (pose proof (find_valid _ W Ev));
    cbv zeta; rewrite ?links_enroll;
    rewrite !links_link by heap_size;
    rewrite ?links_alloc;
    pose proof (@links_beyond s (length (heap s)) (le_n _)) as B0;
    pose proof (@links_beyond s (S (length (heap s))) (le_S _ _ (le_n _))) as B1;
    eqb_cases; rewrite ?B0, ?B1, ?app_nil_r, <- ?app_assoc; try reflexivity.
Qed.

Lemma ident_after_edge_old s shop_id road_to x :
  x < length (heap s) -> ident (after_edge shop_id road_to s) x = ident s x.
Proof.
  intros H. unfold after_edge.
  destruct (StdMap.find (shops s) shop_id), (StdMap.find (shops s) road_to);
    cbv zeta; rewrite ?ident_enroll, ?ident_link;
    rewrite ?ident_alloc_old by heap_size; reflexivity.
Qed.

(** An object that the insertion allocates carries the identifier it was
    looked up under. *)
Lemma ident_after_edge_new s shop_id road_to :
  (StdMap.find (shops s) shop_id = None ->
   ident (after_edge shop_id road_to s) (src_ptr shop_id s) = shop_id)
  /\ (StdMap.find (shops s) road_to = None ->
      ident (after_edge shop_id road_to s) (dst_ptr shop_id road_to s) = road_to).
Proof.
  unfold after_edge, src_ptr, dst_ptr.
  destruct (StdMap.find (shops s) shop_id), (StdMap.find (shops s) road_to);
    cbv zeta; split; intros E; try discriminate;
    rewrite ?ident_enroll, ?ident_link.
  - apply ident_alloc_new.
  - apply ident_alloc_new.
  - rewrite ident_alloc_old by heap_size. apply ident_alloc_new.
  - replace (S (length (heap s))) with (length (heap (alloc shop_id s)))
      by apply heap_alloc.
    apply ident_alloc_new.
Qed.

(** The keys after an insertion: those before, and the two identifiers. *)
Lemma keys_after_edge s shop_id road_to k :
  wf s ->
  StdMap.find (shops (after_edge shop_id road_to s)) k <> None
  <-> StdMap.find (shops s) k <> None \/ k = shop_id \/ k = road_to.
Proof.
  intros W. split.
  - intros H. destruct (N.eq_dec k shop_id) as [->|N1]; [auto|].
    destruct (N.eq_dec k road_to) as [->|N2]; [auto|]. left.
    rewrite shops_after_edge in H.
    destruct (StdMap.find (shops s) shop_id), (StdMap.find (shops s) road_to);
      rewrite ?StdMapFacts.find_insert_other in H by assumption; assumption.
  - intros [H|[->| ->]].
    + destruct (StdMap.find (shops s) k) as [q|] eqn:E; [|contradiction].
      now rewrite (find_after_edge_stable shop_id road_to _ W E).
    + destruct (find_after_edge_endpoints shop_id road_to W) as [[p E] _].
      now rewrite E.
    + destruct (find_after_edge_endpoints shop_id road_to W) as [_ [q E]].
      now rewrite E.
Qed.

(** Where the two identifiers are mapped after the insertion. *)
Lemma find_after_edge_dst s shop_id road_to :
  wf s ->
  StdMap.find (shops (after_edge shop_id road_to s)) road_to
  = Some (dst_ptr shop_id road_to s).
Proof.
  intros W. pose proof (wf_ordered W) as O.
  rewrite shops_after_edge. unfold dst_ptr.
  destruct (StdMap.find (shops s) shop_id) as [shop|] eqn:Eu;
    destruct (StdMap.find (shops s) road_to) as [dest|] eqn:Ev.
  - assumption.
  - now apply StdMapFacts.find_insert_absent.
  - now apply StdMapFacts.find_insert_stable.
  - apply StdMapFacts.find_insert_stable;
      [now apply StdMapFacts.insert_ordered|].
    now apply StdMapFacts.find_insert_absent.
Qed.

Lemma find_after_edge_src s shop_id road_to :
  wf s ->
  (shop_id = road_to -> StdMap.find (shops s) shop_id <> None) ->
  StdMap.find (shops (after_edge shop_id road_to s)) shop_id
  = Some (src_ptr shop_id s).
Proof.
  intros W Fresh. pose proof (wf_ordered W) as O.
  rewrite shops_after_edge. unfold src_ptr.
  destruct (StdMap.find (shops s) shop_id) as [shop|] eqn:Eu;
    destruct (StdMap.find (shops s) road_to) as [dest|] eqn:Ev.
  - assumption.
  - now apply StdMapFacts.find_insert_stable.
  - now apply StdMapFacts.find_insert_absent.
  - assert (shop_id <> road_to) by (intros ->; now apply Fresh).
    apply StdMapFacts.find_insert_absent.
    now rewrite StdMapFacts.find_insert_other.
Qed.

(** ** The edge loop, line by line *)

Lemma edge_loop_read lines : forall i num_roads s,
  edge_loop i num_roads lines s
  = edge_lines (firstn (N.to_nat (num_roads - i)) lines) s.
Proof.
  induction lines as [|l rest IH]; intros i num_roads s.
  - now rewrite firstn_nil.
  - cbn [edge_loop]. destruct (N.ltb_spec i num_roads) as [L|G].
    + replace (N.to_nat (num_roads - i))
        with (S (N.to_nat (num_roads - (i + 1)))) by lia.
      cbn [firstn edge_lines]. unfold bind.
      destruct (edge_line l s); auto.
    + replace (N.to_nat (num_roads - i)) with 0 by lia. reflexivity.
Qed.

Lemma edge_loop_lines_read num_roads lines s :
  edge_loop 0%N num_roads lines s = edge_lines (lines_read num_roads lines) s.
Proof.
  rewrite edge_loop_read. unfold lines_read. now rewrite N.sub_0_r.
Qed.

Lemma lines_read_length num_roads lines :
  length (lines_read num_roads lines) <= N.to_nat num_roads.
Proof. unfold lines_read. apply firstn_le_length. Qed.

(** A run of lines stops the program exactly when one of them does not parse;
    otherwise it returns in a well-formed state. *)
Lemma edge_lines_outcome lines : forall s,
  wf s ->
  (In None lines /\ edge_lines lines s = Terminate)
  \/ (~ In None lines
      /\ exists s', edge_lines lines s = Return tt s' /\ wf s').
Proof.
  induction lines as [|l rest IH]; intros s W; cbn [edge_lines].
  - right. split; [intros []|]. exists s. now split.
  - unfold bind. destruct l as [[shop_id road_to]|].
    + assert (exists s1, edge_line (Some (shop_id, road_to)) s = Return tt s1
                         /\ wf s1) as (s1 & E & W1).
      { unfold edge_line. destruct (N.ltb shop_id 1 || N.ltb 1000 shop_id).
        - exists s. now split.
        - exists (after_edge shop_id road_to s).
          split; [now apply insert_edge_run|now apply wf_after_edge]. }
      rewrite E. destruct (IH s1 W1) as [[I T]|[I R]].
      * left. split; [now right|assumption].
      * right. split; [|assumption]. intros [D|D]; [discriminate|auto].
    + left. split; [now left|reflexivity].
Qed.

(** A property of states that every edge insertion keeps is kept by a run of
    lines. *)
Lemma edge_lines_invariant (P : state -> Prop) :
  (forall s shop_id road_to,
      wf s -> P s -> P (after_edge shop_id road_to s)) ->
  forall lines s s',
    wf s -> P s -> edge_lines lines s = Return tt s' -> P s'.
Proof.
  intros Step. induction lines as [|l rest IH]; intros s s' W H E;
    cbn [edge_lines] in E.
  - now injection E as <-.
  - unfold bind in E. destruct l as [[shop_id road_to]|]; [|discriminate].
    unfold edge_line in E.
    destruct (N.ltb shop_id 1 || N.ltb 1000 shop_id).
    + unfold ret in E. eapply IH; eassumption.
    + rewrite insert_edge_run in E by assumption.
      eapply IH; [| |exact E]; [now apply wf_after_edge|now apply Step].
Qed.

Lemma finalized_lines s :
  finalized s ->
  exists lines, length lines <= 1000
                /\ edge_lines lines initial = Return tt s.
Proof.
  intros (n & lines & B & E). exists (lines_read n lines).
  split.
  - pose proof (lines_read_length n lines). lia.
  - now rewrite <- edge_loop_lines_read.
Qed.

Lemma finalized_invariant (P : state -> Prop) :
  P initial ->
  (forall s shop_id road_to,
      wf s -> P s -> P (after_edge shop_id road_to s)) ->
  forall s, finalized s -> P s.
Proof.
  intros Init Step s F. destruct (finalized_lines F) as (lines & _ & E).
  exact (edge_lines_invariant P Step lines wf_initial Init E).
Qed.

(** ** Invariants of the object graph *)

Lemma insert_nodes_NoDup (m : StdMap.t) k p :
  NoDup (map snd m) -> ~ In p (map snd m) ->
  NoDup (map snd (StdMap.insert (k, p) m)).
Proof.
  induction m as [|e m IH]; simpl; intros ND NI.
  - constructor; [intros []|constructor].
  - destruct (N.compare k (fst e)); simpl.
    + assumption.
    + constructor; [simpl; tauto|assumption].
    + apply NoDup_cons_iff in ND. destruct ND as [N1 N2].
      constructor; [|apply IH; tauto].
      intros H. apply in_map_iff in H. destruct H as ([k' p'] & E & H).
      simpl in E. subst p'. apply StdMapFacts.insert_In in H.
      destruct H as [[= _ E]|H]; [tauto|].
      apply N1. apply in_map_iff. now exists (k', snd e).
Qed.

Lemma insert_nodes_In (m : StdMap.t) k p x :
  In x (map snd (StdMap.insert (k, p) m)) -> x = p \/ In x (map snd m).
Proof.
  intros H. apply in_map_iff in H. destruct H as ([k' p'] & E & H).
  simpl in E. subst p'. apply StdMapFacts.insert_In in H.
  destruct H as [[= _ ->]|H]; [now left|right].
  apply in_map_iff. now exists (k', x).
Qed.

Lemma nodes_below s p : wf s -> In p (nodes s) -> p < length (heap s).
Proof. apply nodes_valid. Qed.

Lemma fresh_not_node s n : wf s -> length (heap s) <= n -> ~ In n (nodes s).
Proof. intros W L H. apply nodes_below in H; [lia|assumption]. Qed.

(** No object is held under two keys. *)
Lemma nodes_NoDup_after_edge s shop_id road_to :
  wf s -> NoDup (nodes s) -> NoDup (nodes (after_edge shop_id road_to s)).
Proof.
  intros W ND. unfold nodes in *. rewrite shops_after_edge.
  pose proof (@fresh_not_node s (length (heap s)) W (le_n _)) as F0.
  pose proof (@fresh_not_node s (S (length (heap s))) W (le_S _ _ (le_n _)))
    as F1.
  unfold nodes in F0, F1.
  destruct (StdMap.find (shops s) shop_id), (StdMap.find (shops s) road_to);
    auto using insert_nodes_NoDup.
  apply insert_nodes_NoDup; [now apply insert_nodes_NoDup|].
  intros H. apply insert_nodes_In in H. destruct H as [H|H]; [lia|auto].
Qed.

Lemma own_keys_after_edge s shop_id road_to :
  wf s -> own_keys s -> own_keys (after_edge shop_id road_to s).
Proof.
  intros W OK k p H.
  assert (Old : In (k, p) (shops s) ->
                ident (after_edge shop_id road_to s) p = k).
  { intros I. rewrite ident_after_edge_old; [now apply OK|].
    eapply wf_registered; eassumption. }
  destruct (ident_after_edge_new s shop_id road_to) as [Nu Nv].
  rewrite shops_after_edge in H. unfold src_ptr, dst_ptr in Nu, Nv.
  destruct (StdMap.find (shops s) shop_id) as [shop|] eqn:Eu;
    destruct (StdMap.find (shops s) road_to) as [dest|] eqn:Ev;
    repeat (apply StdMapFacts.insert_In in H; destruct H as [[= -> ->]|H]);
    auto.
Qed.

Lemma known_identifiers_after_edge s shop_id road_to :
  wf s -> known_identifiers s ->
  known_identifiers (after_edge shop_id road_to s).
Proof.
  intros W KI p H. apply keys_after_edge; [assumption|].
  destruct (Nat.lt_ge_cases p (length (heap s))) as [L|G].
  - left. rewrite ident_after_edge_old by assumption. now apply KI.
  - right. rewrite heap_length_after_edge in H.
    destruct (ident_after_edge_new s shop_id road_to) as [Nu Nv].
    unfold src_ptr, dst_ptr in Nu, Nv.
    destruct (StdMap.find (shops s) shop_id) as [shop|] eqn:Eu;
      destruct (StdMap.find (shops s) road_to) as [dest|] eqn:Ev.
    + lia.
    + replace p with (length (heap s)) by lia. right. now apply Nv.
    + replace p with (length (heap s)) by lia. left. now apply Nu.
    + assert (p = length (heap s) \/ p = S (length (heap s))) as [-> | ->]
        by lia; [left; now apply Nu|right; now apply Nv].
Qed.

Lemma count_occ_guard (c : bool) (a y : nat) :
  count_occ Nat.eq_dec (if c then [a] else []) y
  = if c && Nat.eqb a y then 1 else 0.
Proof.
  destruct c; simpl; [|reflexivity].
  destruct (Nat.eq_dec a y), (Nat.eqb_spec a y); auto; contradiction.
Qed.

Lemma symmetric_links_after_edge s shop_id road_to :
  wf s -> symmetric_links s -> symmetric_links (after_edge shop_id road_to s).
Proof.
  intros W Sym p q. rewrite !links_after_edge by assumption.
  rewrite !count_occ_app, !count_occ_guard.
  pose proof (Sym p q) as E. unfold ptr in *. rewrite E. clear E.
  set (a := src_ptr shop_id s). set (b := dst_ptr shop_id road_to s).
  destruct (Nat.eqb_spec p a), (Nat.eqb_spec p b),
    (Nat.eqb_spec q a), (Nat.eqb_spec q b),
    (Nat.eqb_spec a q), (Nat.eqb_spec b q),
    (Nat.eqb_spec a p), (Nat.eqb_spec b p); simpl; try lia; congruence.
Qed.

Lemma finalized_initial : finalized initial.
Proof. exists 0%N, []. split; [vm_compute; discriminate|reflexivity]. Defined.

Lemma wf_two_hubs : wf two_hubs.
Proof. apply wfb_sound. reflexivity. Defined.

Lemma wf_lone_self_loop : wf lone_self_loop.
Proof. apply wfb_sound. reflexivity. Defined.

Lemma lone_self_loop_finalized : finalized lone_self_loop.
Proof.
  exists 1%N, [Some (5, 5)%N]. split; [vm_compute; discriminate|reflexivity].
Defined.

(** ** The [try]/[catch] block *)

(** X1. On a state without dangling pointers the [try]/[catch] block of the
    edge loop completes normally for any two identifiers: no exception leaves
    it and nothing undefined is reached. It leaves no dangling pointer, adds
    exactly two connections to the heap and allocates at most two objects. *)
Theorem insert_edge_completes (s : state) (shop_id road_to : uint64) :
  wf s ->
  exists s',
    insert_edge shop_id road_to s = Return tt s'
    /\ wf s'
    /\ total_links s' = 2 + total_links s
    /\ length (heap s) <= length (heap s') <= 2 + length (heap s).
Proof.
  intros W. exists (after_edge shop_id road_to s).
  split; [now apply insert_edge_run|].
  split; [now apply wf_after_edge|].
  split; [now apply total_links_after_edge|].
  rewrite heap_length_after_edge.
  destruct (StdMap.find (shops s) shop_id), (StdMap.find (shops s) road_to);
    lia.
Qed.

Lemma insert_edge_completes_witness :
  exists s',
    insert_edge 1%N 7%N two_hubs = Return tt s'
    /\ wf s'
    /\ total_links s' = 2 + total_links two_hubs
    /\ length (heap two_hubs) <= length (heap s') <= 2 + length (heap two_hubs).
Proof. exact (insert_edge_completes 1%N 7%N wf_two_hubs). Defined.

(** X2. What the block does to the vectors: with [src] the object found
    under [shop_id] or allocated for it and [dst] the one for [road_to], [src]
    is appended to the vector of [dst] and then [dst] to the vector of [src];
    no other vector changes and no entry is ever dropped, also when the same
    road was inserted before. Afterwards [road_to] is mapped to [dst], and
    [shop_id] to [src] unless both identifiers are one that the map did not
    hold. *)
Theorem insert_edge_appends (s : state) (shop_id road_to : uint64) :
  wf s ->
  let src := src_ptr shop_id s in
  let dst := dst_ptr shop_id road_to s in
  exists s',
    insert_edge shop_id road_to s = Return tt s'
    /\ (forall x,
           links s' x
           = links s x
             ++ (if Nat.eqb x dst then [src] else [])
             ++ (if Nat.eqb x src then [dst] else []))
    /\ StdMap.find (shops s') road_to = Some dst
    /\ ((shop_id = road_to -> StdMap.find (shops s) shop_id <> None) ->
        StdMap.find (shops s') shop_id = Some src).
Proof.
  intros W src dst. exists (after_edge shop_id road_to s).
  split; [now apply insert_edge_run|].
  split; [intros x; now apply links_after_edge|].
  split; [now apply find_after_edge_dst|].
  now apply find_after_edge_src.
Qed.

Lemma insert_edge_appends_witness :
  exists s',
    insert_edge 1%N 2%N two_hubs = Return tt s'
    /\ links s' 0 = [1; 2; 3; 1] /\ links s' 1 = [0; 4; 5; 0]
    /\ links s' 2 = [0].
Proof.
  destruct (insert_edge_appends 1%N 2%N wf_two_hubs) as (s' & R & L & _).
  exists s'. split; [exact R|].
  split; [exact (L 0)|]. split; [exact (L 1)|exact (L 2)].
Defined.

(** ** Invariants of the states that the edge loop leaves *)

(** X3. In every state that the edge loop leaves, connections come in pairs:
    [q] occurs in the vector of [p] exactly as often as [p] occurs in the
    vector of [q]. *)
Theorem finalized_symmetric (s : state) :
  finalized s -> symmetric_links s.
Proof.
  apply finalized_invariant.
  - intros p q. unfold links. simpl. now destruct p, q.
  - intros s0 u v. apply symmetric_links_after_edge.
Qed.

Lemma finalized_symmetric_witness : symmetric_links two_hubs.
Proof. exact (finalized_symmetric two_hubs_finalized). Defined.

Lemma finalized_own_keys_pair s : finalized s -> own_keys s /\ NoDup (nodes s).
Proof.
  intros F. split.
  - revert s F. apply finalized_invariant.
    + intros k p [].
    + intros s0 u v. apply own_keys_after_edge.
  - revert s F. apply finalized_invariant.
    + constructor.
    + intros s0 u v. apply nodes_NoDup_after_edge.
Qed.

(** X4. In every state that the edge loop leaves, every entry of the map
    holds an object whose identifier is the key, and no object is held under
    two keys. *)
Theorem finalized_own_keys (s : state) :
  finalized s -> own_keys s /\ NoDup (nodes s).
Proof. apply finalized_own_keys_pair. Qed.

Lemma finalized_own_keys_witness :
  own_keys lone_self_loop /\ NoDup (nodes lone_self_loop).
Proof. exact (finalized_own_keys lone_self_loop_finalized). Defined.

(** X5. In every state that the edge loop leaves, the identifier of every
    allocated object is a key of the map: [shop_at] on the identifier of any
    neighbour of a registered shop returns a shop and does not throw. *)
Theorem finalized_neighbours_resolve (s : state) :
  finalized s ->
  known_identifiers s
  /\ forall k p q,
      In (k, p) (shops s) -> In q (links s p) ->
      exists r, shop_at (ident s q) s = Return r s.
Proof.
  intros F.
  assert (KI : known_identifiers s).
  { revert s F. apply finalized_invariant.
    - intros p H. simpl in H. lia.
    - intros s0 u v. apply known_identifiers_after_edge. }
  split; [assumption|]. intros k p q Hp Hq.
  pose proof (wf_connected (finalized_wf F) _ _ Hq) as V.
  specialize (KI q V). unfold shop_at.
  destruct (StdMap.find (shops s) (ident s q)) as [r|]; [|contradiction].
  now exists r.
Qed.

Lemma finalized_neighbours_resolve_witness :
  exists r, shop_at (ident lone_self_loop 0) lone_self_loop
            = Return r lone_self_loop.
Proof.
  refine (proj2 (finalized_neighbours_resolve lone_self_loop_finalized)
                5%N 1 0 _ _).
  - left. reflexivity.
  - left. reflexivity.
Defined.

(** X6. The edge loop only appends: each object that exists before a run of
    the loop keeps its identifier, and its vector after the run is its vector
    before followed by what the run added; no object disappears. *)
Theorem edge_loop_only_appends
    (i num_roads : uint64) (lines : list line) (s s' : state) :
  wf s ->
  edge_loop i num_roads lines s = Return tt s' ->
  length (heap s) <= length (heap s')
  /\ forall p,
      p < length (heap s) ->
      ident s' p = ident s p
      /\ exists added, links s' p = links s p ++ added.
Proof.
  intros W E. rewrite edge_loop_read in E. revert E.
  apply (edge_lines_invariant
           (fun s1 => length (heap s) <= length (heap s1)
                      /\ forall p, p < length (heap s) ->
                           ident s1 p = ident s p
                           /\ exists added, links s1 p = links s p ++ added)).
  - intros s1 u v W1 [L H]. split.
    + pose proof (heap_after_edge s1 u v). lia.
    + intros p Hp. destruct (H p Hp) as [I [added A]]. split.
      * rewrite ident_after_edge_old by lia. assumption.
      * rewrite links_after_edge by assumption. rewrite A.
        rewrite <- app_assoc. eauto.
  - assumption.
  - split; [lia|]. intros p _. split; [reflexivity|].
    exists []. now rewrite app_nil_r.
Qed.

Lemma edge_loop_only_appends_witness :
  ident (after_edge 1%N 7%N two_hubs) 0 = ident two_hubs 0
  /\ exists added,
      links (after_edge 1%N 7%N two_hubs) 0 = links two_hubs 0 ++ added.
Proof.
  refine (proj2 (@edge_loop_only_appends 0%N 1%N [Some (1, 7)%N] two_hubs
                   (after_edge 1%N 7%N two_hubs) wf_two_hubs _) 0 _).
  - reflexivity.
  - simpl. lia.
Defined.

(** ** [register_shop] and [shop_at] *)

(** X7. After [register_shop(p)], [shop_at] on the identifier of [p] returns
    [p] when the identifier was not a key, and the shop that was registered
    under it before otherwise; the lookups of all other identifiers and the
    heap are as before. *)
Theorem register_then_shop_at (s : state) (p : ptr) :
  wf s -> p < length (heap s) ->
  exists s',
    register_shop p s = Return tt s'
    /\ heap s' = heap s
    /\ shop_at (ident s p) s'
       = Return (match StdMap.find (shops s) (ident s p) with
                 | Some q => q
                 | None => p
                 end) s'
    /\ forall k, k <> ident s p ->
                 StdMap.find (shops s') k = StdMap.find (shops s) k.
Proof.
  intros W V. exists (enroll p s).
  split; [now apply register_shop_valid|].
  split; [apply heap_enroll|].
  unfold shop_at. rewrite !shops_enroll by assumption. split.
  - destruct (StdMap.find (shops s) (ident s p)) as [q|] eqn:E.
    + match goal with
      | |- match ?t with _ => _ end = _ => replace t with (Some q)
      end; [reflexivity|].
      symmetry. apply StdMapFacts.find_insert_stable; [apply W|assumption].
    + match goal with
      | |- match ?t with _ => _ end = _ => replace t with (Some p)
      end; [reflexivity|].
      symmetry. now apply StdMapFacts.find_insert_absent.
  - intros k NE. now apply StdMapFacts.find_insert_other.
Qed.

Lemma register_then_shop_at_witness :
  exists s',
    register_shop 0 lone_self_loop = Return tt s'
    /\ shop_at 5%N s' = Return 1 s'.
Proof.
  assert (V : 0 < length (heap lone_self_loop)) by (simpl; lia).
  destruct (register_then_shop_at wf_lone_self_loop V) as (s' & R & _ & A & _).
  exists s'. split; [exact R|exact A].
Defined.

(** ** [main] *)

Section MainOutcome.

Context {sorter : StdSort}.

Lemma lines_read_twice num_roads lines :
  lines_read num_roads (lines_read num_roads lines)
  = lines_read num_roads lines.
Proof.
  unfold lines_read. rewrite firstn_firstn. now rewrite Nat.min_id.
Qed.

(** After the lines have been read, [main] prints what [reduce] returns. *)
Lemma main_after_lines num_shops num_roads lines :
  header_ok (Some (num_shops, num_roads)) = true ->
  main (Some (num_shops, num_roads)) lines initial
  = match edge_lines (lines_read num_roads lines) initial with
    | Return _ s' => reduce s'
    | Throw s' => Throw s'
    | Terminate => Terminate
    | Undefined => Undefined
    end.
Proof.
  intros H. unfold header_ok in H. apply andb_true_iff in H.
  destruct H as [H1 H2]. apply negb_true_iff in H1, H2.
  unfold main. rewrite H1, H2. unfold bind at 1.
  rewrite edge_loop_lines_read.
  destruct (edge_lines_outcome (lines_read num_roads lines) wf_initial)
    as [[_ ->]|[_ (s' & -> & W)]]; [reflexivity|].
  unfold bind at 1. rewrite print_network_returns by assumption.
  unfold bind at 1. rewrite number_of_connections_returns by assumption.
  reflexivity.
Qed.

Lemma reduce_never_terminates s : wf s -> reduce s <> Terminate.
Proof.
  intros W. destruct (shops s) eqn:E.
  - rewrite reduce_empty by assumption. discriminate.
  - rewrite reduce_returns; [discriminate|assumption|].
    rewrite E. discriminate.
Qed.

End MainOutcome.

(** A run in which a line is inserted leaves a map that holds a key; a run in
    which none is leaves the state as it was. *)
Lemma edge_lines_inserted lines : forall s s',
  wf s -> edge_lines lines s = Return tt s' ->
  (inserted lines = 0 -> s' = s)
  /\ (0 < inserted lines -> shops s' <> []).
Proof.
  induction lines as [|l rest IH]; intros s s' W E; cbn [edge_lines] in E.
  - injection E as <-. split; [reflexivity|simpl; lia].
  - unfold bind in E. destruct l as [[shop_id road_to]|]; [|discriminate].
    unfold edge_line in E. cbn [inserted].
    destruct (N.ltb shop_id 1 || N.ltb 1000 shop_id).
    + unfold ret in E. exact (IH _ _ W E).
    + rewrite insert_edge_run in E by assumption.
      split; [lia|]. intros _.
      assert (K : exists k q,
                 StdMap.find (shops (after_edge shop_id road_to s)) k = Some q).
      { exists road_to. eexists. now apply find_after_edge_dst. }
      revert E.
      apply (edge_lines_invariant (fun s1 => shops s1 <> [])).
      * intros s1 u v W1 NE. destruct (shops s1) as [|[k q] m] eqn:Sh;
          [contradiction|].
        assert (F : StdMap.find (shops s1) k = Some q)
          by (rewrite Sh; simpl; now rewrite N.eqb_refl).
        apply (find_after_edge_stable u v _ W1) in F.
        intros Em. rewrite Em in F. discriminate.
      * now apply wf_after_edge.
      * destruct K as (k & q & F). intros Em. rewrite Em in F. discriminate.
Qed.

(** X8. [main] reads at most [num_roads] edge lines: what follows them in the
    file, parsable or not, has no effect. *)
Theorem lines_beyond_num_roads_unread
    (sorter : StdSort) (num_shops num_roads : uint64) (lines : list line)
    (s : state) :
  @main sorter (Some (num_shops, num_roads)) lines s
  = @main sorter (Some (num_shops, num_roads)) (lines_read num_roads lines) s.
Proof.
  unfold main.
  destruct (N.ltb num_shops 2 || N.ltb 1000 num_shops); [reflexivity|].
  destruct (N.ltb num_roads 1 || N.ltb 1000 num_roads); [reflexivity|].
  assert (E : edge_loop 0%N num_roads lines s
              = edge_loop 0%N num_roads (lines_read num_roads lines) s)
    by (now rewrite !edge_loop_lines_read, lines_read_twice).
  set (rest := fun _ : unit =>
                 print_network ;; number_of_connections ;; @reduce sorter).
  change (bind (edge_loop 0%N num_roads lines) rest s
          = bind (edge_loop 0%N num_roads (lines_read num_roads lines)) rest s).
  unfold bind at 1 2. now rewrite E.
Qed.

(** X9. [main] ends in [std::terminate()] exactly when the header does not
    parse or is out of bounds, or one of the lines it reads does not parse;
    a file with fewer than [num_roads] lines is not an error. *)
Theorem main_terminates_iff
    (sorter : StdSort) (header : line) (lines : list line) :
  @main sorter header lines initial = Terminate
  <-> header_ok header = false
      \/ exists num_shops num_roads,
          header = Some (num_shops, num_roads)
          /\ In None (lines_read num_roads lines).
Proof.
  destruct header as [[num_shops num_roads]|]; [|split; auto].
  destruct (header_ok (Some (num_shops, num_roads))) eqn:H.
  - rewrite (@main_after_lines sorter _ _ _ H).
    destruct (edge_lines_outcome (lines_read num_roads lines) wf_initial)
      as [[I ->]|[I (s' & -> & W)]].
    + split; [|reflexivity]. intros _. right. eauto.
    + split.
      * intros T. now apply reduce_never_terminates in T.
      * intros [D|(a & b & [= <- <-] & I')]; [discriminate|contradiction].
  - split; [auto|]. intros _. unfold header_ok in H. unfold main.
    destruct (N.ltb num_shops 2 || N.ltb 1000 num_shops); [reflexivity|].
    simpl in H. apply negb_false_iff in H. now rewrite H.
Qed.

(** X10. With an accepted header and lines that all parse, [main] is
    undefined when no line it reads has its first identifier in [1,1000]
    (the map is empty at [reduce]); otherwise it prints a number that is 0 or
    at least 2, computed in a state that the edge loop leaves. *)
Theorem main_prints_or_undefined
    (sorter : StdSort) (num_shops num_roads : uint64) (lines : list line) :
  header_ok (Some (num_shops, num_roads)) = true ->
  ~ In None (lines_read num_roads lines) ->
  (inserted (lines_read num_roads lines) = 0 ->
   @main sorter (Some (num_shops, num_roads)) lines initial = Undefined)
  /\ (0 < inserted (lines_read num_roads lines) ->
      exists n s,
        @main sorter (Some (num_shops, num_roads)) lines initial = Return n s
        /\ finalized s /\ shops s <> [] /\ (n = 0 \/ 2 <= n)%N).
Proof.
  intros H NI. rewrite (@main_after_lines sorter _ _ _ H).
  destruct (edge_lines_outcome (lines_read num_roads lines) wf_initial)
    as [[I _]|[_ (s' & E & W)]]; [contradiction|].
  rewrite E. destruct (edge_lines_inserted _ wf_initial E) as [Z P].
  split.
  - intros Z0. rewrite (Z Z0). now apply reduce_empty.
  - intros P0. exists (reduce_value s'), s'.
    split; [apply reduce_returns; auto|].
    split; [|split; [auto|apply reduce_value_cases]].
    exists num_roads, lines. split.
    + unfold header_ok in H. apply andb_true_iff in H. destruct H as [_ H].
      apply negb_true_iff, orb_false_iff in H. destruct H as [_ H].
      now apply N.ltb_ge in H.
    + now rewrite edge_loop_lines_read.
Qed.

Lemma main_prints_or_undefined_witness :
  @main insertion_sorter (Some (2, 3)%N) [Some (0, 7)%N; Some (1001, 1)%N]
        initial = Undefined
  /\ exists n s,
      @main insertion_sorter (Some (2, 1)%N) [Some (5, 5)%N; None] initial
      = Return n s
      /\ finalized s /\ shops s <> [] /\ (n = 0 \/ 2 <= n)%N.
Proof.
  split.
  - refine (proj1 (@main_prints_or_undefined insertion_sorter 2%N 3%N
                     [Some (0, 7)%N; Some (1001, 1)%N] _ _) _).
    + reflexivity.
    + intros [D|[D|[]]]; discriminate.
    + reflexivity.
  - refine (proj2 (@main_prints_or_undefined insertion_sorter 2%N 1%N
                     [Some (5, 5)%N; None] _ _) _).
    + reflexivity.
    + intros [D|[]]; discriminate.
    + vm_compute. constructor.
Defined.

(** ** Objects outside the map, and what [number_of_connections] misses *)

Lemma insert_keeps kv (m : StdMap.t) e : In e m -> In e (StdMap.insert kv m).
Proof.
  induction m as [|e' m IH]; simpl; [intros []|].
  destruct (N.compare (fst kv) (fst e')); simpl; intros [->|H]; auto.
Qed.

Lemma insert_adds (m : StdMap.t) k p :
  StdMap.find m k = None -> In (k, p) (StdMap.insert (k, p) m).
Proof.
  induction m as [|[k1 v1] m IH]; simpl; [now left|].
  destruct (N.eqb_spec k k1) as [->|NE]; [discriminate|].
  intros H. destruct (N.compare_spec k k1); simpl; auto. contradiction.
Qed.

Lemma insert_length (m : StdMap.t) k p :
  StdMap.ordered m ->
  length (StdMap.insert (k, p) m)
  = length m + match StdMap.find m k with Some _ => 0 | None => 1 end.
Proof.
  intros O. destruct (StdMap.find m k) as [q|] eqn:E.
  - rewrite (@StdMapFacts.insert_present m k p q O E). lia.
  - rewrite <- (length_map snd), (Permutation_length (@nodes_insert_absent m k p E)).
    simpl. rewrite length_map. lia.
Qed.

Lemma nodes_after_edge_incl s shop_id road_to p :
  In p (nodes s) -> In p (nodes (after_edge shop_id road_to s)).
Proof.
  unfold nodes. rewrite shops_after_edge. intros H.
  apply in_map_iff in H. destruct H as (e & <- & H). apply in_map.
  destruct (StdMap.find (shops s) shop_id), (StdMap.find (shops s) road_to);
    auto using insert_keeps.
Qed.

Lemma find_node s k p : StdMap.find (shops s) k = Some p -> In p (nodes s).
Proof.
  intros H. apply StdMapFacts.find_In in H. unfold nodes.
  apply in_map_iff. now exists (k, p).
Qed.

Lemma lone_orphans_after_edge s shop_id road_to :
  wf s -> lone_orphans s -> lone_orphans (after_edge shop_id road_to s).
Proof.
  intros W LO p Hp NI. unfold degree.
  rewrite links_after_edge by assumption.
  destruct (Nat.lt_ge_cases p (length (heap s))) as [L|G].
  - assert (NI0 : ~ In p (nodes s))
      by (intros I; apply NI; now apply nodes_after_edge_incl).
    assert (p <> src_ptr shop_id s) as N1.
    { intros ->. unfold src_ptr in *.
      destruct (StdMap.find (shops s) shop_id) eqn:E; [|lia].
      apply NI0. eapply find_node; eassumption. }
    assert (p <> dst_ptr shop_id road_to s) as N2.
    { intros ->. unfold dst_ptr in *.
      destruct (StdMap.find (shops s) road_to) eqn:E.
      - apply NI0. eapply find_node; eassumption.
      - destruct (StdMap.find (shops s) shop_id); lia. }
    apply Nat.eqb_neq in N1, N2. rewrite N1, N2, !app_nil_r.
    now apply LO.
  - rewrite (links_beyond s G). simpl.
    rewrite heap_length_after_edge in Hp.
    unfold nodes in NI. rewrite shops_after_edge in NI.
    unfold src_ptr, dst_ptr.
    destruct (StdMap.find (shops s) shop_id) as [shop|] eqn:Eu;
      destruct (StdMap.find (shops s) road_to) as [dest|] eqn:Ev.
    + lia.
    + exfalso. apply NI. replace p with (length (heap s)) by lia.
      apply in_map_iff. exists (road_to, length (heap s)).
      split; [reflexivity|now apply insert_adds].
    + exfalso. apply NI. replace p with (length (heap s)) by lia.
      apply in_map_iff. exists (shop_id, length (heap s)).
      split; [reflexivity|now apply insert_adds].
    + assert (p = length (heap s) \/ p = S (length (heap s))) as [-> | ->]
        by lia.
      * destruct (N.eq_dec shop_id road_to) as [->|NE].
        -- rewrite Nat.eqb_refl.
           replace (Nat.eqb (length (heap s)) (S (length (heap s))))
             with false by (symmetry; apply Nat.eqb_neq; lia).
           reflexivity.
        -- exfalso. apply NI. apply in_map_iff.
           exists (shop_id, length (heap s)). split; [reflexivity|].
           apply insert_adds. now rewrite StdMapFacts.find_insert_other.
      * exfalso. apply NI. apply in_map_iff.
        exists (road_to, S (length (heap s))). split; [reflexivity|].
        apply insert_keeps. now apply insert_adds.
Qed.

Lemma list_sum_partition A (f : A -> nat) (g : A -> bool) l :
  list_sum (map f l)
  = list_sum (map f (filter g l))
    + list_sum (map f (filter (fun x => negb (g x)) l)).
Proof.
  induction l as [|x l IH]; simpl; [reflexivity|].
  destruct (g x); simpl; lia.
Qed.

Lemma length_partition A (g : A -> bool) l :
  length l = length (filter g l) + length (filter (fun x => negb (g x)) l).
Proof.
  induction l as [|x l IH]; simpl; [reflexivity|].
  destruct (g x); simpl; lia.
Qed.

Lemma list_sum_ones A (f : A -> nat) l :
  (forall x, In x l -> f x = 1) -> list_sum (map f l) = length l.
Proof.
  induction l as [|x l IH]; simpl; intros H; [reflexivity|].
  rewrite H by (now left). rewrite IH; [reflexivity|]. intros y Hy.
  apply H. now right.
Qed.

Lemma sum_degrees_heap s :
  list_sum (map (degree s) (seq 0 (length (heap s)))) = total_links s.
Proof.
  unfold total_links. rewrite <- degrees_of_heap.
  f_equal. apply map_ext. intros p. unfold degree, links.
  now destruct (nth_error (heap s) p).
Qed.

Lemma registered_of_heap s :
  wf s -> NoDup (nodes s) ->
  Permutation (filter (is_in (nodes s)) (seq 0 (length (heap s)))) (nodes s).
Proof.
  intros W ND. apply NoDup_Permutation.
  - apply NoDup_filter, seq_NoDup.
  - assumption.
  - intros x. rewrite filter_In, in_seq, is_in_spec. split; [tauto|].
    intros H. split; [|assumption]. apply nodes_valid in H; [lia|assumption].
Qed.

(** What the registered shops hold, and the objects outside the map: the
    connections that [number_of_connections] counts are those of the heap
    less one per object outside the map. *)
Lemma sum_degrees_nodes s :
  wf s -> NoDup (nodes s) -> lone_orphans s ->
  list_sum (map (degree s) (nodes s)) + length (heap s)
  = total_links s + length (shops s).
Proof.
  intros W ND LO.
  pose proof (registered_of_heap W ND) as P.
  rewrite <- sum_degrees_heap.
  rewrite (list_sum_partition (degree s) (is_in (nodes s))
             (seq 0 (length (heap s)))).
  rewrite (Permutation_list_sum (Permutation_map (degree s) P)).
  rewrite (list_sum_ones (degree s)
             (filter (fun x => negb (is_in (nodes s) x))
                     (seq 0 (length (heap s))))).
  - pose proof (length_partition (is_in (nodes s)) (seq 0 (length (heap s))))
      as L.
    rewrite length_seq, (Permutation_length P) in L.
    assert (length (nodes s) = length (shops s)) as N
      by (unfold nodes; apply length_map).
    lia.
  - intros x Hx. apply filter_In in Hx. destruct Hx as [Hx Hn].
    apply in_seq in Hx. apply LO; [lia|].
    intros I. apply is_in_spec in I. rewrite I in Hn. discriminate.
Qed.

Lemma keys_are_after_edge seen s shop_id road_to :
  wf s -> keys_are seen s ->
  keys_are (shop_id :: road_to :: seen) (after_edge shop_id road_to s).
Proof.
  intros W K k. rewrite keys_after_edge by assumption. rewrite (K k).
  simpl. intuition congruence.
Qed.

Lemma keys_are_fresh seen s k :
  keys_are seen s ->
  negb (existsb (N.eqb k) seen)
  = match StdMap.find (shops s) k with Some _ => false | None => true end.
Proof.
  intros K. destruct (existsb (N.eqb k) seen) eqn:E; simpl.
  - apply existsb_exists in E. destruct E as (x & Hx & E).
    apply N.eqb_eq in E. subst x. apply K in Hx.
    destruct (StdMap.find (shops s) k); [reflexivity|contradiction].
  - destruct (StdMap.find (shops s) k) eqn:F; [|reflexivity].
    assert (In k seen) as I by (apply K; rewrite F; discriminate).
    assert (existsb (N.eqb k) seen = true) as T
      by (apply existsb_exists; exists k; split; [assumption|apply N.eqb_refl]).
    congruence.
Qed.

Lemma shops_length_after_edge s shop_id road_to :
  wf s ->
  length (shops (after_edge shop_id road_to s))
  + (if N.eqb shop_id road_to
     then match StdMap.find (shops s) shop_id with Some _ => 0 | None => 1 end
     else 0)
  = length (shops s)
    + match StdMap.find (shops s) shop_id with Some _ => 0 | None => 1 end
    + match StdMap.find (shops s) road_to with Some _ => 0 | None => 1 end.
Proof.
  intros W. pose proof (wf_ordered W) as O. rewrite shops_after_edge.
  destruct (N.eqb_spec shop_id road_to) as [->|NE].
  - destruct (StdMap.find (shops s) road_to) eqn:E; [lia|].
    rewrite insert_length by (now apply StdMapFacts.insert_ordered).
    rewrite StdMapFacts.find_insert_absent by assumption.
    rewrite insert_length, E by assumption. lia.
  - destruct (StdMap.find (shops s) shop_id) eqn:Eu;
      destruct (StdMap.find (shops s) road_to) eqn:Ev.
    + lia.
    + rewrite insert_length, Ev by assumption. lia.
    + rewrite insert_length, Eu by assumption. lia.
    + rewrite insert_length by (now apply StdMapFacts.insert_ordered).
      rewrite StdMapFacts.find_insert_other, Eu by assumption.
      rewrite insert_length, Ev by assumption. lia.
Qed.

Lemma edge_lines_counts lines : forall s s' seen c,
  wf s -> keys_are seen s ->
  length (heap s) = length (shops s) + c ->
  edge_lines lines s = Return tt s' ->
  total_links s' = 2 * inserted lines + total_links s
  /\ length (heap s')
     = length (shops s') + (c + first_self_loops seen lines).
Proof.
  induction lines as [|l rest IH]; intros s s' seen c W K L E;
    cbn [edge_lines] in E.
  - injection E as <-. simpl. split; lia.
  - unfold bind in E. destruct l as [[shop_id road_to]|]; [|discriminate].
    unfold edge_line in E. cbn [inserted first_self_loops].
    destruct (N.ltb shop_id 1 || N.ltb 1000 shop_id).
    + unfold ret in E. destruct (IH _ _ _ _ W K L E). split; lia.
    + rewrite insert_edge_run in E by assumption.
      pose proof (shops_length_after_edge shop_id road_to W) as SL.
      pose proof (heap_length_after_edge s shop_id road_to) as HL.
      rewrite (keys_are_fresh shop_id K).
      set (fresh := if N.eqb shop_id road_to
                    then match StdMap.find (shops s) shop_id with
                         | Some _ => 0 | None => 1 end
                    else 0) in *.
      assert (F : (if N.eqb shop_id road_to
                      && match StdMap.find (shops s) shop_id with
                         | Some _ => false | None => true end
                   then 1 else 0) = fresh).
      { unfold fresh. destruct (N.eqb shop_id road_to),
          (StdMap.find (shops s) shop_id); reflexivity. }
      rewrite F.
      destruct (IH _ _ _ (c + fresh)
                  (wf_after_edge shop_id road_to W)
                  (keys_are_after_edge shop_id road_to W K)
                  ltac:(lia) E) as [T H].
      rewrite total_links_after_edge in T by assumption. split; lia.
Qed.

Lemma finalized_NoDup s : finalized s -> NoDup (nodes s).
Proof.
  revert s. apply finalized_invariant.
  - constructor.
  - intros s0 u v. apply nodes_NoDup_after_edge.
Qed.

Lemma finalized_lone_orphans s : finalized s -> lone_orphans s.
Proof.
  revert s. apply finalized_invariant.
  - intros p H. simpl in H. lia.
  - intros s0 u v. apply lone_orphans_after_edge.
Qed.

Lemma keys_are_initial : keys_are [] initial.
Proof. intros k. simpl. tauto. Qed.

Lemma connections_count_sum s :
  (N.of_nat (list_sum (map (degree s) (nodes s))) < 2 ^ 64)%N ->
  connections_count s = N.of_nat (list_sum (map (degree s) (nodes s))).
Proof.
  intros B. unfold connections_count.
  rewrite connections_fold_nowrap; fold (nodes s); [lia|assumption].
Qed.

(** The counts at the end of a run of the edge loop from the start. *)
Lemma edge_loop_counts num_roads lines s :
  (num_roads <= 1000)%N ->
  edge_loop 0%N num_roads lines initial = Return tt s ->
  total_links s = 2 * inserted (lines_read num_roads lines)
  /\ length (heap s)
     = length (shops s) + first_self_loops [] (lines_read num_roads lines)
  /\ list_sum (map (degree s) (nodes s))
     + first_self_loops [] (lines_read num_roads lines)
     = 2 * inserted (lines_read num_roads lines)
  /\ total_links s <= 2000.
Proof.
  intros B E.
  assert (F : finalized s) by (exists num_roads, lines; auto).
  rewrite edge_loop_lines_read in E.
  destruct (@edge_lines_counts (lines_read num_roads lines) initial s [] 0
              wf_initial keys_are_initial eq_refl E) as [T H].
  change (total_links initial) with 0 in T.
  pose proof (sum_degrees_nodes (finalized_wf F) (finalized_NoDup F)
                (finalized_lone_orphans F)) as S.
  pose proof (finalized_total_links F).
  repeat split; lia.
Qed.

(** X11. What [number_of_connections] returns after the edge loop: two per
    inserted line, less one for every inserted self-loop line whose
    identifier is on no earlier inserted line. *)
Theorem number_of_connections_exact
    (num_roads : uint64) (lines : list line) (s : state) :
  (num_roads <= 1000)%N ->
  edge_loop 0%N num_roads lines initial = Return tt s ->
  number_of_connections s
  = Return (N.of_nat (2 * inserted (lines_read num_roads lines)
                      - first_self_loops [] (lines_read num_roads lines))) s.
Proof.
  intros B E.
  assert (F : finalized s) by (exists num_roads, lines; auto).
  destruct (edge_loop_counts lines B E) as (T & _ & S & L).
  rewrite number_of_connections_returns by (now apply finalized_wf).
  f_equal. rewrite connections_count_sum.
  - f_equal. lia.
  - apply N.lt_le_trans with (N.of_nat 2001); [lia|].
    vm_compute. discriminate.
Qed.

Lemma number_of_connections_exact_witness :
  exists s,
    edge_loop 0%N 3%N [Some (5, 5); Some (5, 6); Some (6, 6)]%N initial
    = Return tt s
    /\ number_of_connections s = Return 5%N s.
Proof.
  eexists. split; [reflexivity|].
  refine (@number_of_connections_exact 3%N
            [Some (5, 5); Some (5, 6); Some (6, 6)]%N _ _ _).
  - vm_compute. discriminate.
  - reflexivity.
Defined.

(** ** [operator<<] *)

Lemma stream_network_returns s :
  wf s ->
  stream_network s
  = Return
      (flat_map (fun e => map (fun q => (ident s (snd e), ident s q))
                              (links s (snd e)))
                (shops s)) s.
Proof.
  intros W. unfold stream_network, bind at 1, get_shops. unfold bind at 1.
  rewrite (for_each_reads _
             (fun e => map (fun q => (ident s (snd e), ident s q))
                           (links s (snd e)))).
  - unfold ret. now rewrite flat_map_concat_map.
  - intros [k p] H. pose proof (wf_registered W _ _ H) as V. simpl snd.
    unfold bind at 1. rewrite get_connected_shops_valid by assumption.
    apply for_each_reads. intros q Hq. unfold bind.
    rewrite get_identifier_valid by assumption.
    rewrite get_identifier_valid; [reflexivity|].
    eapply wf_connected; eassumption.
Qed.

Lemma flat_map_agree A B (f g : A -> list B) l :
  (forall x, In x l -> f x = g x) -> flat_map f l = flat_map g l.
Proof.
  induction l as [|x l IH]; simpl; intros H; [reflexivity|].
  rewrite H by (now left). rewrite IH; [reflexivity|].
  intros y Hy. apply H. now right.
Qed.

Lemma flat_map_length_sum A B (f : A -> list B) l :
  length (flat_map f l) = list_sum (map (fun x => length (f x)) l).
Proof.
  induction l as [|x l IH]; simpl; [reflexivity|].
  now rewrite length_app, IH.
Qed.

(** X12. On a state that the edge loop leaves, [operator<<] writes, in the
    key order of the map, one line per connection of every registered shop:
    the key, then the identifier of the connected object. It leaves the state
    as it is, and [number_of_connections] returns the number of lines. *)
Theorem stream_network_lines (s : state) :
  finalized s ->
  let written :=
    flat_map (fun e => map (fun q => (fst e, ident s q)) (links s (snd e)))
             (shops s) in
  stream_network s = Return written s
  /\ number_of_connections s = Return (N.of_nat (length written)) s.
Proof.
  intros F written. pose proof (finalized_wf F) as W.
  destruct (finalized_own_keys_pair F) as [OK ND].
  assert (L : length written = list_sum (map (degree s) (nodes s))).
  { unfold written. rewrite flat_map_length_sum. unfold nodes.
    rewrite map_map. f_equal. apply map_ext. intros e.
    now rewrite length_map. }
  split.
  - rewrite stream_network_returns by assumption. f_equal.
    unfold written. apply flat_map_agree. intros [k p] H. simpl.
    now rewrite (OK k p H).
  - rewrite number_of_connections_returns by assumption. f_equal.
    rewrite L. apply connections_count_sum.
    pose proof (sum_degrees_nodes W ND (finalized_lone_orphans F)) as S.
    pose proof (finalized_total_links F) as T.
    assert (length (shops s) <= length (heap s)) as LE.
    { pose proof (Permutation_length (registered_of_heap W ND)) as P.
      pose proof (length_partition (is_in (nodes s))
                    (seq 0 (length (heap s)))) as Q.
      rewrite length_seq in Q. unfold nodes in P at 2.
      rewrite length_map in P. lia. }
    apply N.lt_le_trans with (N.of_nat 2001); [lia|].
    vm_compute. discriminate.
Qed.

Lemma stream_network_lines_witness :
  stream_network lone_self_loop = Return [(5, 5)%N] lone_self_loop
  /\ number_of_connections lone_self_loop = Return 1%N lone_self_loop.
Proof. exact (stream_network_lines lone_self_loop_finalized). Defined.

(** ** More on [reduce] *)

Lemma ties_le keys : ties keys <= length keys.
Proof. unfold ties. apply filter_length_le. Qed.



(** X13. What [reduce] returns is at most the number of shops that reach the
    largest number of connections, which is at most the number of registered
    shops; with a single registered shop it returns 0. *)
Theorem reduce_at_most_core (sorter : StdSort) (s : state) :
  wf s -> shops s <> [] ->
  exists n,
    @reduce sorter s = Return n s
    /\ (n <= N.of_nat (length (Core s)))%N
    /\ length (Core s) <= length (shops s)
    /\ (length (shops s) = 1 -> n = 0%N).
Proof.
  intros W NE. exists (reduce_value s).
  split; [now apply reduce_returns|].
  assert (C : length (Core s) <= length (shops s)).
  { unfold Core. rewrite <- (length_map snd (shops s)).
    apply filter_length_le. }
  assert (B : (reduce_value s <= N.of_nat (length (Core s)))%N).
  { unfold reduce_value. cbv zeta.
    pose proof (ties_le (map (fun el => N.to_nat (impact_of s (Core s) el))
                             (Core s))) as T.
    rewrite length_map in T.
    destruct (Nat.ltb _ 2); lia. }
  repeat split; try assumption.
  intros One. destruct (reduce_value_cases s); [assumption|lia].
Qed.

Lemma reduce_at_most_core_witness :
  exists n,
    @reduce insertion_sorter lone_self_loop = Return n lone_self_loop
    /\ (n <= N.of_nat (length (Core lone_self_loop)))%N
    /\ length (Core lone_self_loop) <= length (shops lone_self_loop)
    /\ (length (shops lone_self_loop) = 1 -> n = 0%N).
Proof.
  apply (reduce_at_most_core insertion_sorter wf_lone_self_loop).
  discriminate.
Defined.



(** ** The destructor *)

Lemma delete_loop_returns s (m : StdMap.t) : forall released,
  (forall e, In e m -> snd e < length (heap s)) ->
  NoDup (released ++ map snd m) ->
  for_fold (fun released each_pair => delete_shop released (snd each_pair))
           m released s
  = Return (released ++ map snd m) s.
Proof.
  induction m as [|[k p] m IH]; intros released V ND; simpl.
  - now rewrite app_nil_r.
  - unfold bind, delete_shop.
    replace (is_in released p) with false.
    2:{ symmetry. destruct (is_in released p) eqn:E; [|reflexivity].
        apply is_in_spec in E. apply NoDup_remove_2 in ND.
        exfalso. apply ND. apply in_or_app. now left. }
    unfold bind, deref.
    destruct (nth_error (heap s) p) eqn:E.
    2:{ apply nth_error_None in E. specialize (V (k, p) (or_introl eq_refl)).
        simpl in V. lia. }
    unfold ret. rewrite IH.
    + now rewrite <- app_assoc.
    + intros e He. apply V. now right.
    + now rewrite <- app_assoc.
Qed.

Lemma destroy_network_returns s :
  wf s -> NoDup (nodes s) ->
  destroy_network s = Return (nodes s) (State (heap s) StdMap.empty).
Proof.
  intros W ND. unfold destroy_network, bind at 1, get_shops.
  unfold bind at 1. rewrite delete_loop_returns.
  - reflexivity.
  - intros [k p] H. simpl. eapply wf_registered; eassumption.
  - assumption.
Qed.

(** X15. After the edge loop the destructor completes: it releases every
    registered shop once, never an object twice and never a pointer to no
    object, and empties the map. The objects it does not release are as many
    as the inserted self-loop lines whose identifier is on no earlier
    inserted line. *)
Theorem destroy_network_releases
    (num_roads : uint64) (lines : list line) (s : state) :
  (num_roads <= 1000)%N ->
  edge_loop 0%N num_roads lines initial = Return tt s ->
  exists released,
    destroy_network s = Return released (State (heap s) StdMap.empty)
    /\ released = nodes s
    /\ NoDup released
    /\ (forall p, In p released -> p < length (heap s))
    /\ length released + first_self_loops [] (lines_read num_roads lines)
       = length (heap s).
Proof.
  intros B E.
  assert (F : finalized s) by (exists num_roads, lines; auto).
  pose proof (finalized_wf F) as W. pose proof (finalized_NoDup F) as ND.
  exists (nodes s). split; [now apply destroy_network_returns|].
  split; [reflexivity|]. split; [assumption|].
  split; [intros p; now apply nodes_valid|].
  destruct (edge_loop_counts lines B E) as (_ & H & _).
  unfold nodes. rewrite length_map. lia.
Qed.

Lemma destroy_network_releases_witness :
  exists released,
    destroy_network lone_self_loop
    = Return released (State (heap lone_self_loop) StdMap.empty)
    /\ released = [1]
    /\ NoDup released
    /\ (forall p, In p released -> p < 2)
    /\ length released + 1 = 2.
Proof.
  refine (@destroy_network_releases 1%N [Some (5, 5)%N] lone_self_loop _ _).
  - vm_compute. discriminate.
  - reflexivity.
Defined.

(** ** The keys at the end *)

Lemma edge_lines_keys lines : forall s s' seen,
  wf s -> keys_are seen s ->
  edge_lines lines s = Return tt s' ->
  keys_are (endpoints lines ++ seen) s'.
Proof.
  induction lines as [|l rest IH]; intros s s' seen W K E;
    cbn [edge_lines] in E.
  - injection E as <-. assumption.
  - unfold bind in E. destruct l as [[shop_id road_to]|]; [|discriminate].
    unfold edge_line in E. cbn [endpoints].
    destruct (N.ltb shop_id 1 || N.ltb 1000 shop_id).
    + unfold ret in E. eapply IH; eassumption.
    + rewrite insert_edge_run in E by assumption.
      pose proof (IH _ _ _ (wf_after_edge shop_id road_to W)
                    (keys_are_after_edge shop_id road_to W K) E) as K'.
      intros k. rewrite (K' k). simpl. rewrite !in_app_iff. simpl. tauto.
Qed.

(** X16. At the end of the edge loop, [shop_at] returns a shop exactly for
    the identifiers that occur, in either position, on an inserted line;
    the second identifier of such a line is a key whatever its value, and an
    identifier that is only on skipped lines is not. *)
Theorem shop_at_after_edge_loop
    (num_roads : uint64) (lines : list line) (s : state) (k : uint64) :
  edge_loop 0%N num_roads lines initial = Return tt s ->
  (exists p, shop_at k s = Return p s)
  <-> In k (endpoints (lines_read num_roads lines)).
Proof.
  intros E. rewrite edge_loop_lines_read in E.
  pose proof (edge_lines_keys _ wf_initial keys_are_initial E k) as K.
  rewrite app_nil_r in K. rewrite <- K. unfold shop_at.
  destruct (StdMap.find (shops s) k) as [p|]; split.
  - discriminate.
  - intros _. now exists p.
  - intros [p D]. discriminate.
  - intros C. now contradiction C.
Qed.

Lemma shop_at_after_edge_loop_witness :
  (exists p, shop_at 5002%N (after_edge 5%N 5002%N initial)
             = Return p (after_edge 5%N 5002%N initial))
  /\ ~ exists p, shop_at 7%N (after_edge 5%N 5002%N initial)
                 = Return p (after_edge 5%N 5002%N initial).
Proof.
  pose proof (@shop_at_after_edge_loop 2%N [Some (0, 7); Some (5, 5002)]%N
                (after_edge 5%N 5002%N initial)) as H.
  split.
  - apply (H 5002%N); [reflexivity|]. right. left. reflexivity.
  - intros C. apply (H 7%N) in C; [|reflexivity].
    destruct C as [D|[D|[]]]; discriminate.
Defined.




